(** * kstr: a growable byte string with embedded terminal styling codes

    A shallow embedding of [kstr.c] and proofs about it.

    The string object of [kstr.c] is a C struct with three [size_t]
    counters, a heap buffer and a cached basename.  Here the struct is a
    record, the buffer is the list of the bytes of the allocated block,
    [size_t] values are integers with the wrap-around of the C type written
    out, and every function of [kstr.c] is a function from the object before
    the call to the outcome of the call.  What the C library and the heap do
    (does an allocation succeed, what does a fresh block contain, what does
    [printf] render, what does [basename] return) is not decided by
    [kstr.c]: it enters as the [platform] and the [heap] the functions run
    on. *)

From Stdlib Require Import ZArith Lia Strings.String Strings.Byte DecimalString.
From stdpp Require Import base numbers list.

Local Open Scope Z_scope.

(** ** Bytes and C strings *)

Definition nul : byte := x00.
Definition ESC : byte := x1b.

(** The bytes of a string literal, without a terminator. *)
Definition bytes (s : string) : list byte := list_byte_of_string s.

(** What a [char const *] designates: the bytes stored at the pointer up to,
    and without, the first nul.  A list that holds no nul is read to its
    end, where the terminator of the array it stands for sits. *)
Fixpoint c_str (l : list byte) : list byte :=
  match l with
  | [] => []
  | b :: r => if Byte.eqb b nul then [] else b :: c_str r
  end.

Definition strlen (l : list byte) : Z := Z.of_nat (length (c_str l)).

Definition nul_free (l : list byte) : Prop := Forall (fun b => b <> nul) l.

(** ** Outcomes of a call *)

(** A call returns, or it ends in [abort()], or it leaves defined behaviour
    (an access outside a block), or the bounded unrolling of a loop was too
    short to reach the loop's exit. *)
Inductive outcome (A : Type) : Type :=
  | Ok (a : A)
  | Aborted
  | Undefined
  | OutOfFuel.

Arguments Ok {A} a.
Arguments Aborted {A}.
Arguments Undefined {A}.
Arguments OutOfFuel {A}.

Definition bind {A B : Type} (o : outcome A) (k : A -> outcome B) : outcome B :=
  match o with
  | Ok a => k a
  | Aborted => Aborted
  | Undefined => Undefined
  | OutOfFuel => OutOfFuel
  end.

Notation "'do' x <- o ; k" := (bind o (fun x => k))
  (at level 10, x name, o at level 100, k at level 200).

(** ** The platform and the heap *)

(** Arguments of a [printf]-style call, as a [va_list] carries them. *)
Inductive parg : Type :=
  | arg_int (n : Z)
  | arg_str (s : list byte).

(** The C implementation the library is compiled for: the largest [size_t]
    ([(size_t) -1] in [kstr.c]), [int] and [uintmax_t], the size of
    [struct kstr], what the [printf] family renders for a format and its
    arguments ([None]: the call fails), and [basename()] of [<libgen.h>].
    The format is the pointer as the caller passes it: the C string it
    points to, or [None] for a null pointer.  [kstr.c] hands its format to
    [vsnprintf] unchecked, and ISO C does not say what the library does
    with a null one, so the answer to it is the platform's as well. *)
Record platform : Type := Platform {
  SIZE_MAX : Z;
  INT_MAX : Z;
  UINTMAX_MAX : Z;
  sizeof_kstr : Z;
  render : option (list byte) -> list parg -> option (list byte);
  libc_basename : list byte -> list byte;
  SIZE_MAX_min : 65535 <= SIZE_MAX;
  INT_MAX_min : 32767 <= INT_MAX;
  INT_MAX_fits : INT_MAX <= SIZE_MAX;
  UINTMAX_MAX_min : 2 * INT_MAX + 1 <= UINTMAX_MAX
}.

(** The state of the allocator at a call: which request sizes it can serve,
    and the indeterminate byte a fresh block holds at each offset. *)
Record heap : Type := Heap {
  can_alloc : Z -> bool;
  fresh_byte : nat -> byte
}.

Definition fresh (m : heap) (from count : nat) : list byte :=
  map (fresh_byte m) (seq from count).

(** [malloc(n)]: a block of [n] indeterminate bytes, or a null pointer. *)
Definition malloc (m : heap) (n : Z) : option (list byte) :=
  if can_alloc m n then Some (fresh m 0 (Z.to_nat n)) else None.

(** [realloc(p, n)]: the old bytes up to the smaller of the two sizes, then
    indeterminate bytes; or a null pointer, the old block untouched. *)
Definition realloc (m : heap) (p : list byte) (n : Z) : option (list byte) :=
  if can_alloc m n
  then Some (take (Z.to_nat n) p ++ fresh m (length p) (Z.to_nat n - length p))
  else None.

(** [strdup(s)]: a fresh copy of the C string at [s], or a null pointer. *)
Definition strdup (m : heap) (s : list byte) : option (list byte) :=
  if can_alloc m (strlen s + 1) then Some (c_str s) else None.

(** [memcpy(dst + off, src, n)] and [dst[i] = b], inside the block [dst]. *)
Definition memcpy (dst : list byte) (off : Z) (src : list byte) (n : Z)
  : outcome (list byte) :=
  if (0 <=? off) && (off + n <=? Z.of_nat (length dst))
     && (n <=? Z.of_nat (length src))
  then Ok (take (Z.to_nat off) dst ++ take (Z.to_nat n) src
             ++ drop (Z.to_nat (off + n)) dst)
  else Undefined.

Definition store (dst : list byte) (i : Z) (b : byte) : outcome (list byte) :=
  if (0 <=? i) && (i <? Z.of_nat (length dst))
  then Ok (<[Z.to_nat i := b]> dst)
  else Undefined.

(** ** The string object *)

(** [struct kstr]. *)
Record kstr : Type := Kstr {
  data_size : Z;                  (* allocated buffer size *)
  used : Z;                       (* number of buffer bytes used, nul included *)
  width : Z;                      (* string width: visible characters *)
  basename : option (list byte);  (* the cached basename, or null *)
  data : list byte                (* character buffer *)
}.

Definition set_buffer (s : kstr) (n : Z) (d : list byte) : kstr :=
  {| data_size := n; used := used s; width := width s;
     basename := basename s; data := d |}.

Section Kstr.

Variable P : platform.

(** Arithmetic of [size_t]. *)
Definition wrap (x : Z) : Z := x mod (SIZE_MAX P + 1).

Definition grow_factor : Z := 2.
Definition init_size : Z := 64.

(** [kstr_abort]: [abort()] does not return. *)
Definition kstr_abort {A : Type} : outcome A := Aborted.

Definition kstr_available (this : kstr) : Z :=
  wrap (data_size this - used this).

Definition kstr_grow (m : heap) (this : kstr) : outcome kstr :=
  if data_size this =? SIZE_MAX P then kstr_abort
  else
    let new_data_size :=
      if SIZE_MAX P / grow_factor <? data_size this
      then SIZE_MAX P
      else wrap (data_size this * grow_factor) in
    match realloc m (data this) new_data_size with
    | None => kstr_abort
    | Some new_data => Ok (set_buffer this new_data_size new_data)
    end.

(** [while (kstr_available(this) < count) if (kstr_grow(this) == NULL)
    return NULL;], unrolled [fuel] times. *)
Fixpoint grow_until (fuel : nat) (m : heap) (this : kstr) (count : Z)
  : outcome kstr :=
  if kstr_available this <? count then
    match fuel with
    | O => OutOfFuel
    | S fuel' => do this' <- kstr_grow m this; grow_until fuel' m this' count
    end
  else Ok this.

(** Doubling a buffer of one byte or more passes [SIZE_MAX] within this
    many rounds. *)
Definition grow_rounds : nat := Z.to_nat (Z.log2 (SIZE_MAX P)) + 2.

Definition kstr_add_chars (m : heap) (this : kstr) (chars : option (list byte))
    (count : Z) (visible : bool) : outcome kstr :=
  match chars with
  | None => Ok this
  | Some chars =>
    if count =? 0 then Ok this
    else
      do this <- grow_until grow_rounds m this count;
      do d <- memcpy (data this) (used this - 1) chars count;
      let used' := wrap (used this + count) in
      do d <- store d (wrap (used' - 1)) nul;
      Ok {| data_size := data_size this;
            used := used';
            width := if visible then wrap (width this + count) else width this;
            basename := None;
            data := d |}
  end.

(** The control codes of [kstr_add_bg] and [kstr_add_fg], in the order of
    [enum kstr_color]: default, black, blue, cyan, green, magenta, red,
    white, yellow. *)
Definition kstr_num_colors : Z := 9.

Definition bg_codes : list (list byte) :=
  [ ESC :: bytes "[49m"; ESC :: bytes "[40m"; ESC :: bytes "[44m";
    ESC :: bytes "[46m"; ESC :: bytes "[42m"; ESC :: bytes "[45m";
    ESC :: bytes "[41m"; ESC :: bytes "[47m"; ESC :: bytes "[43m" ].

Definition fg_codes : list (list byte) :=
  [ ESC :: bytes "[39m"; ESC :: bytes "[30m"; ESC :: bytes "[34m";
    ESC :: bytes "[36m"; ESC :: bytes "[32m"; ESC :: bytes "[35m";
    ESC :: bytes "[31m"; ESC :: bytes "[37m"; ESC :: bytes "[33m" ].

(** [(uintmax_t) x]. *)
Definition to_uintmax (x : Z) : Z := x mod (UINTMAX_MAX P + 1).

Definition kstr_add_bg (m : heap) (this : kstr) (color : Z) : outcome kstr :=
  if to_uintmax kstr_num_colors <=? to_uintmax color then kstr_abort
  else
    match bg_codes !! Z.to_nat color with
    | None => Undefined
    | Some chars => kstr_add_chars m this (Some chars) (strlen chars) false
    end.

Definition kstr_add_bold (m : heap) (this : kstr) (bold : bool) : outcome kstr :=
  let chars := if bold then ESC :: bytes "[1m" else ESC :: bytes "[22m" in
  kstr_add_chars m this (Some chars) (strlen chars) false.

Definition kstr_add_fg (m : heap) (this : kstr) (color : Z) : outcome kstr :=
  if to_uintmax kstr_num_colors <=? to_uintmax color then kstr_abort
  else
    match fg_codes !! Z.to_nat color with
    | None => Undefined
    | Some chars => kstr_add_chars m this (Some chars) (strlen chars) false
    end.

Definition kstr_add_reset (m : heap) (this : kstr) : outcome kstr :=
  let chars := ESC :: bytes "[0m" in
  kstr_add_chars m this (Some chars) (strlen chars) false.

Definition kstr_add_text (m : heap) (this : kstr) (text : option (list byte))
  : outcome kstr :=
  kstr_add_chars m this text
    (match text with None => 0 | Some t => strlen t end) true.

(** [vsnprintf(buf, n, fmt, args)].  The rendering of a call is that of the
    platform, for the format as it is passed, null or not.  A rendering
    longer than [INT_MAX] is a failure ([EOVERFLOW]).  The call returns the
    length of the rendering, or a negative value on failure.  For [n > 0]
    it stores, at [buf], the rendering cut to [n - 1] bytes and a nul; on
    failure it stores the empty string (with [n = 1], as [kstr_add_vfmt]
    then calls it, a nul is all that fits). *)
Definition rendering (fmt : option (list byte)) (args : list parg)
  : option (list byte) :=
  match render P (c_str <$> fmt) args with
  | None => None
  | Some out =>
    if Z.of_nat (length out) <=? INT_MAX P then Some out else None
  end.

Definition vsnprintf_length (fmt : option (list byte)) (args : list parg) : Z :=
  match rendering fmt args with
  | None => -1
  | Some out => Z.of_nat (length out)
  end.

Definition vsnprintf_store (buf : list byte) (off n : Z)
    (fmt : option (list byte)) (args : list parg) : outcome (list byte) :=
  if n =? 0 then Ok buf
  else
    let out := default [] (rendering fmt args) in
    let stored := take (Z.to_nat (n - 1)) out ++ [nul] in
    memcpy buf off stored (Z.of_nat (length stored)).

Definition kstr_add_vfmt (m : heap) (this : kstr) (fmt : option (list byte))
    (args : list parg) : outcome kstr :=
  let length := vsnprintf_length fmt args in
  let count := if length <? 0 then 0 else wrap length in
  do this <- grow_until grow_rounds m this count;
  do d <- vsnprintf_store (data this) (used this - 1) (wrap (count + 1)) fmt args;
  Ok {| data_size := data_size this;
        used := wrap (used this + count);
        width := wrap (width this + count);
        basename := None;
        data := d |}.

(** [kstr_add_fmt] hands its variable arguments to [kstr_add_vfmt]. *)
Definition kstr_add_fmt := kstr_add_vfmt.

(** [kstr_get] returns the buffer; its caller reads the C string there. *)
Definition kstr_get (this : kstr) : list byte := c_str (data this).

Definition kstr_get_copy (m : heap) (this : kstr) : outcome (list byte) :=
  match strdup m (data this) with
  | None => kstr_abort
  | Some data_copy => Ok data_copy
  end.

(** [kstr_basename] returns the basename and leaves it in the cache. *)
Definition kstr_basename (m : heap) (this : kstr) : outcome (list byte * kstr) :=
  match basename this with
  | Some b => Ok (b, this)
  | None =>
    do data_copy <- kstr_get_copy m this;
    match strdup m (libc_basename P data_copy) with
    | None => kstr_abort
    | Some b =>
      Ok (b, {| data_size := data_size this; used := used this;
                width := width this; basename := Some b;
                data := data this |})
    end
  end.

Definition kstr_copy (m : heap) (this : kstr) : outcome kstr :=
  if can_alloc m (sizeof_kstr P) then
    match malloc m (data_size this) with
    | None => kstr_abort
    | Some block =>
      do d <- memcpy block 0 (data this) (data_size this);
      Ok {| data_size := data_size this; used := used this;
            width := width this; basename := None; data := d |}
    end
  else kstr_abort.

Definition kstr_new (m : heap) (text : option (list byte)) : outcome kstr :=
  if can_alloc m (sizeof_kstr P) then
    match malloc m init_size with
    | None => kstr_abort
    | Some block =>
      do d <- store block 0 nul;
      kstr_add_text m
        {| data_size := init_size; used := 1; width := 0;
           basename := None; data := d |} text
    end
  else kstr_abort.

Definition kstr_reset (this : kstr) : outcome kstr :=
  do d <- store (data this) 0 nul;
  Ok {| data_size := data_size this; used := 1; width := 0;
        basename := None; data := d |}.

Definition kstr_set_text (m : heap) (this : kstr) (text : option (list byte))
  : outcome kstr :=
  do this <- kstr_reset this;
  kstr_add_text m this text.

Definition kstr_set_vfmt (m : heap) (this : kstr) (fmt : option (list byte))
    (args : list parg) : outcome kstr :=
  do this <- kstr_reset this;
  kstr_add_vfmt m this fmt args.

(** [kstr_set_fmt] hands its variable arguments to [kstr_set_vfmt]. *)
Definition kstr_set_fmt := kstr_set_vfmt.

Definition kstr_size (this : kstr) : Z := used this.

Definition kstr_width (this : kstr) : Z := width this.

End Kstr.

(** ** Calls and runs *)

(** The operations that change a string, as one type: a run of the library
    is a list of calls, each against the heap as it is at that call. *)
Inductive op : Type :=
  | set_text (text : option (list byte))
  | set_fmt (fmt : option (list byte)) (args : list parg)
  | add_text (text : option (list byte))
  | add_fmt (fmt : option (list byte)) (args : list parg)
  | add_bold (bold : bool)
  | add_fg (color : Z)
  | add_bg (color : Z)
  | add_reset.

Definition call (P : platform) (m : heap) (o : op) (this : kstr) : outcome kstr :=
  match o with
  | set_text text => kstr_set_text P m this text
  | set_fmt fmt args => kstr_set_fmt P m this fmt args
  | add_text text => kstr_add_text P m this text
  | add_fmt fmt args => kstr_add_fmt P m this fmt args
  | add_bold bold => kstr_add_bold P m this bold
  | add_fg color => kstr_add_fg P m this color
  | add_bg color => kstr_add_bg P m this color
  | add_reset => kstr_add_reset P m this
  end.

Fixpoint run (P : platform) (calls : list (heap * op)) (this : kstr)
  : outcome kstr :=
  match calls with
  | [] => Ok this
  | (m, o) :: rest => do this' <- call P m o this; run P rest this'
  end.

(** The strings a program can hold: made by [kstr_new] or [kstr_copy],
    changed by the operations above, their basename asked for. *)
Inductive reachable (P : platform) : kstr -> Prop :=
  | reach_new m text this :
      kstr_new P m text = Ok this -> reachable P this
  | reach_copy m this this' :
      reachable P this -> kstr_copy P m this = Ok this' -> reachable P this'
  | reach_call m o this this' :
      reachable P this -> call P m o this = Ok this' -> reachable P this'
  | reach_basename m this b this' :
      reachable P this -> kstr_basename P m this = Ok (b, this') ->
      reachable P this'.

(** The representation invariant of a live string: the counters are
    [size_t] values, the buffer has [data_size] bytes of which at least 64,
    [used] counts at least the terminator and at most the buffer, the byte
    at [used - 1] is the terminator, and the width counts no more than the
    bytes before it. *)
Record rep_inv (P : platform) (this : kstr) : Prop := RepInv {
  inv_used_min : 1 <= used this;
  inv_terminator : data this !! Z.to_nat (used this - 1) = Some nul;
  inv_width : 0 <= width this <= used this - 1;
  inv_capacity : used this <= data_size this;
  inv_capacity_min : 64 <= data_size this;
  inv_size_t : data_size this <= SIZE_MAX P;
  inv_block : Z.of_nat (length (data this)) = data_size this
}.

(** The buffer is a block of [data_size] bytes. *)
Definition block_ok (P : platform) (this : kstr) : Prop :=
  Z.of_nat (length (data this)) = data_size this
  /\ 1 <= data_size this <= SIZE_MAX P.

(** What growing may change: the buffer gets longer at its end, nothing
    else moves. *)
Definition grown (this this' : kstr) : Prop :=
  used this' = used this /\ width this' = width this
  /\ basename this' = basename this
  /\ data_size this <= data_size this'
  /\ exists junk, data this' = data this ++ junk.

(** The size [kstr_grow] asks for: twice the old one, or [SIZE_MAX] when
    twice the old one is not a [size_t]. *)
Definition next_size (P : platform) (n : Z) : Z :=
  if SIZE_MAX P / 2 <? n then SIZE_MAX P else n * 2.

(** The bytes a string holds before its terminator. *)
Definition content (this : kstr) : list byte :=
  take (Z.to_nat (used this - 1)) (data this).

(** ** What a call appends

    The bytes a call puts behind the value, and whether it empties the
    value first. *)
Definition text_value (text : option (list byte)) : list byte :=
  match text with None => [] | Some t => c_str t end.

Definition bold_code (bold : bool) : list byte :=
  if bold then ESC :: bytes "[1m" else ESC :: bytes "[22m".

Definition reset_code : list byte := ESC :: bytes "[0m".

Definition appended (P : platform) (o : op) : list byte :=
  match o with
  | set_text text | add_text text => text_value text
  | set_fmt fmt args | add_fmt fmt args => default [] (rendering P fmt args)
  | add_bold bold => bold_code bold
  | add_fg color => default [] (fg_codes !! Z.to_nat color)
  | add_bg color => default [] (bg_codes !! Z.to_nat color)
  | add_reset => reset_code
  end.

Definition resets (o : op) : bool :=
  match o with
  | set_text _ | set_fmt _ _ => true
  | _ => false
  end.

(** The values of [enum kstr_color]. *)
Definition valid_color (color : Z) : Prop := 0 <= color < kstr_num_colors.

Definition valid_op (o : op) : Prop :=
  match o with
  | add_fg color | add_bg color => valid_color color
  | _ => True
  end.

(** The values an object of type [kstr_color] can hold at all: those of
    the integer type the enumeration is compatible with, [int] or
    [unsigned int]. *)
Definition color_repr (P : platform) (color : Z) : Prop :=
  - INT_MAX P - 1 <= color <= 2 * INT_MAX P + 1.

Definition op_typed (P : platform) (o : op) : Prop :=
  match o with
  | add_fg color | add_bg color => color_repr P color
  | _ => True
  end.

(** A heap that serves every request. *)
Definition unlimited (m : heap) : Prop := forall n, can_alloc m n = true.

(** The library fails a call of the [printf] family whose format is a null
    pointer, as glibc does ([EINVAL]). *)
Definition null_format_fails (P : platform) (args : list parg) : Prop :=
  render P None args = None.

(** ** The width a run of calls should leave, by the specification

    Plain and formatted text count with their byte lengths, a set starts
    the count again, styling codes count nothing. *)
Definition text_length (text : option (list byte)) : Z :=
  match text with None => 0 | Some t => strlen t end.

Definition fmt_length (P : platform) (fmt : option (list byte))
    (args : list parg) : Z :=
  match rendering P fmt args with
  | None => 0
  | Some out => Z.of_nat (length out)
  end.

Definition visible_length (P : platform) (o : op) : Z :=
  match o with
  | set_text text | add_text text => text_length text
  | set_fmt fmt args | add_fmt fmt args => fmt_length P fmt args
  | add_bold _ | add_fg _ | add_bg _ | add_reset => 0
  end.

Definition visible_width (P : platform) (before : Z) (o : op) : Z :=
  (if resets o then 0 else before) + visible_length P o.

Definition spec_width (P : platform) (before : Z) (calls : list (heap * op)) : Z :=
  fold_left (fun w c => visible_width P w (snd c)) calls before.

Definition is_styling (o : op) : bool :=
  match o with
  | add_bold _ | add_fg _ | add_bg _ | add_reset => true
  | _ => false
  end.

(** ** A concrete platform

    An LP64 system whose [printf] knows [%%], [%s], [%c] and [%d] and
    fails on a null format, as that of glibc, and whose [basename] is that
    of POSIX. *)

(** [printf]: [pct] is set when the byte before was an unfinished [%]. *)
Fixpoint printf_from (pct : bool) (fmt : list byte) (args : list parg)
  : option (list byte) :=
  match fmt with
  | [] => if pct then None else Some []
  | b :: r =>
    if pct then
      if Byte.eqb b "%"%byte then cons b <$> printf_from false r args
      else if Byte.eqb b "s"%byte then
        match args with
        | arg_str s :: args' => app (c_str s) <$> printf_from false r args'
        | _ => None
        end
      else if Byte.eqb b "c"%byte then
        match args with
        | arg_int n :: args' =>
          cons (default nul (Byte.of_N (Z.to_N (n mod 256))))
            <$> printf_from false r args'
        | _ => None
        end
      else if Byte.eqb b "d"%byte then
        match args with
        | arg_int n :: args' =>
          app (bytes (NilZero.string_of_int (Z.to_int n)))
            <$> printf_from false r args'
        | _ => None
        end
      else None
    else if Byte.eqb b "%"%byte then printf_from true r args
    else cons b <$> printf_from false r args
  end.

(** The call as a whole: a null format fails, as it does in glibc, which
    checks its format and sets [EINVAL]. *)
Definition printf_model (fmt : option (list byte)) (args : list parg)
  : option (list byte) :=
  match fmt with
  | None => None
  | Some f => printf_from false f args
  end.

(** POSIX [basename]: the empty string gives ["."], trailing slashes are
    ignored, a string of slashes only gives ["/"], else the bytes after the
    last slash that is left. *)
Definition slash : byte := "/"%byte.

Definition strip_slashes (p : list byte) : list byte :=
  fold_right (fun b acc =>
    match acc with
    | [] => if Byte.eqb b slash then [] else [b]
    | _ => b :: acc
    end) [] p.

Definition last_component (p : list byte) : list byte :=
  fold_left (fun acc b => if Byte.eqb b slash then [] else acc ++ [b]) p [].

Definition posix_basename (p : list byte) : list byte :=
  match c_str p with
  | [] => bytes "."
  | path =>
    match strip_slashes path with
    | [] => bytes "/"
    | stripped => last_component stripped
    end
  end.

Definition lp64 : platform :=
  {| SIZE_MAX := 18446744073709551615;
     INT_MAX := 2147483647;
     UINTMAX_MAX := 18446744073709551615;
     sizeof_kstr := 40;
     render := printf_model;
     libc_basename := posix_basename;
     SIZE_MAX_min := ltac:(lia);
     INT_MAX_min := ltac:(lia);
     INT_MAX_fits := ltac:(lia);
     UINTMAX_MAX_min := ltac:(lia) |}.

(** A system with a 16-bit [size_t] and [int]. *)
Definition ip16 : platform :=
  {| SIZE_MAX := 65535;
     INT_MAX := 32767;
     UINTMAX_MAX := 18446744073709551615;
     sizeof_kstr := 10;
     render := printf_model;
     libc_basename := posix_basename;
     SIZE_MAX_min := ltac:(lia);
     INT_MAX_min := ltac:(lia);
     INT_MAX_fits := ltac:(lia);
     UINTMAX_MAX_min := ltac:(lia) |}.

(** A heap that serves every request, and one that serves none. *)
Definition roomy : heap :=
  {| can_alloc := fun _ => true; fresh_byte := fun _ => "?"%byte |}.

Definition exhausted : heap :=
  {| can_alloc := fun _ => false; fresh_byte := fun _ => "?"%byte |}.


(** ** The colors and their ANSI numbers

    [enum kstr_color], and the parameter the ANSI standard gives each color
    in a "select graphic rendition" sequence [ESC [ n m]: 30 to 37 and 39
    for the foreground, ten more for the background. *)
Inductive kstr_color : Type :=
  | kstr_color_default
  | kstr_color_black
  | kstr_color_blue
  | kstr_color_cyan
  | kstr_color_green
  | kstr_color_magenta
  | kstr_color_red
  | kstr_color_white
  | kstr_color_yellow.

(** The value of an enumerator: its position in the declaration. *)
Definition color_value (c : kstr_color) : Z :=
  match c with
  | kstr_color_default => 0
  | kstr_color_black => 1
  | kstr_color_blue => 2
  | kstr_color_cyan => 3
  | kstr_color_green => 4
  | kstr_color_magenta => 5
  | kstr_color_red => 6
  | kstr_color_white => 7
  | kstr_color_yellow => 8
  end.

Definition ansi_foreground (c : kstr_color) : Z :=
  match c with
  | kstr_color_black => 30
  | kstr_color_red => 31
  | kstr_color_green => 32
  | kstr_color_yellow => 33
  | kstr_color_blue => 34
  | kstr_color_magenta => 35
  | kstr_color_cyan => 36
  | kstr_color_white => 37
  | kstr_color_default => 39
  end.

Definition ansi_background (c : kstr_color) : Z := ansi_foreground c + 10.

Definition sgr (n : Z) : list byte :=
  ESC :: bytes "[" ++ bytes (NilZero.string_of_int (Z.to_int n)) ++ bytes "m".

(** ** The grow step as the specification words it

    Capacity doubles and the bytes in use stay; a capacity at the maximum,
    or one whose double is not representable, is a fatal failure. *)
Definition grow_as_specified (P : platform) (m : heap) (this : kstr) : Prop :=
  (data_size this = SIZE_MAX P \/ SIZE_MAX P < data_size this * 2 ->
   kstr_grow P m this = Aborted)
  /\ (forall this', kstr_grow P m this = Ok this' ->
        data_size this' = data_size this * 2
        /\ take (Z.to_nat (used this)) (data this')
           = take (Z.to_nat (used this)) (data this)).

(** ** Sample values

    The texts of the test program: every byte value but nul, a text of
    1 KiB, a text in UTF-8. *)
Definition text_bytes : list byte :=
  omap (fun n => Byte.of_N (N.of_nat n)) (seq 1 255).

Definition text_long : list byte :=
  mjoin (replicate 64 (bytes "0123456789abcdef")).

Definition text_utf8 : list byte := bytes "這是UTF-8文本".

(** A buffer of 32768 bytes on the 16-bit platform: its double is no
    [size_t]. *)
Definition half_full : kstr :=
  {| data_size := 32768; used := 1; width := 0; basename := None;
     data := replicate (Z.to_nat 32768) nul |}.

(** ** Destruction

    [kstr_free] takes a pointer to a handle: the pointer is null or points
    to a handle, and the handle is null or a live string.  The call leaves
    the handle null, hands the blocks of the string back to the heap (the
    buffer, the cached basename when there is one, the object) and returns
    a null pointer. *)
Inductive block : Type :=
  | block_data (d : list byte)
  | block_basename (b : list byte)
  | block_object.



(** ** The value a run of calls should leave

    A set replaces the value, every other call puts its bytes behind it. *)
Definition value_after (P : platform) (before : list byte) (o : op) : list byte :=
  (if resets o then [] else before) ++ appended P o.

Definition spec_value (P : platform) (before : list byte)
    (calls : list (heap * op)) : list byte :=
  fold_left (fun v c => value_after P v (snd c)) calls before.

(** The bytes a call needs in the buffer, the terminator included. *)
Definition needed (P : platform) (this : kstr) (o : op) : Z :=
  (if resets o then 1 else used this) + Z.of_nat (length (appended P o)).

(** The capacities the grow step can reach from the initial one: 64 doubled
    a number of times, or [SIZE_MAX]. *)
Definition doubled (P : platform) (n : Z) : Prop :=
  n = SIZE_MAX P \/ exists k : nat, n = 64 * 2 ^ Z.of_nat k.

(** How the capacity [b] after a call that needs [need] bytes relates to
    the capacity [a] before it: [b] is [a] after some grow steps, and it is
    [a] itself unless [a] was too small, in which case it is less than twice
    the bytes needed and the heap served it. *)
Definition regrown (P : platform) (m : heap) (need a b : Z) : Prop :=
  (exists n : nat, b = Nat.iter n (next_size P) a)
  /\ (b = a \/ a < need /\ a < b < 2 * need /\ can_alloc m b = true).

(** A heap that serves no request. *)
Definition barren (m : heap) : Prop := forall n, can_alloc m n = false.

(** A full buffer on the 16-bit platform: 40000 bytes of value in a block
    of [SIZE_MAX] bytes. *)
Definition nearly_full : kstr :=
  {| data_size := 65535; used := 40001; width := 40000; basename := None;
     data := replicate (Z.to_nat 40000) "a"%byte
             ++ nul :: replicate (Z.to_nat 25534) "?"%byte |}.

(** A heap that serves requests of up to 64 bytes and no other. *)
Definition small_blocks : heap :=
  {| can_alloc := fun n => n <=? 64; fresh_byte := fun _ => "?"%byte |}.

(** * Proofs *)

(** ** C strings *)

Lemma byte_eqb_false (a b : byte) : a <> b -> Byte.eqb a b = false.
Proof.
  intros Hne. destruct (Byte.eqb a b) eqn:E; [|done].
  apply byte_dec_bl in E. done.
Qed.

Lemma byte_eqb_refl (a : byte) : Byte.eqb a a = true.
Proof. by apply byte_dec_lb. Qed.

Lemma c_str_nul_free (l : list byte) : nul_free (c_str l).
Proof.
  induction l as [|b r IH]; simpl; [constructor|].
  destruct (Byte.eqb b nul) eqn:E; constructor; [|done].
  intros ->. by rewrite byte_eqb_refl in E.
Qed.

Lemma c_str_stops (l r : list byte) :
  nul_free l -> c_str (l ++ nul :: r) = l.
Proof.
  induction 1 as [|b l Hb _ IH]; simpl; [done|].
  by rewrite byte_eqb_false, IH.
Qed.

Lemma c_str_id (l : list byte) : nul_free l -> c_str l = l.
Proof.
  induction 1 as [|b l Hb _ IH]; simpl; [done|].
  by rewrite byte_eqb_false, IH.
Qed.

Lemma c_str_prefix (l : list byte) : exists r, l = c_str l ++ r.
Proof.
  induction l as [|b l [r IH]]; simpl; [by exists []|].
  destruct (Byte.eqb b nul); [by eexists|].
  exists r. simpl. by rewrite <- IH.
Qed.

Lemma strlen_le (l : list byte) : 0 <= strlen l <= Z.of_nat (length l).
Proof.
  unfold strlen. destruct (c_str_prefix l) as [r Hr].
  apply (f_equal length) in Hr. rewrite length_app in Hr. lia.
Qed.

Lemma take_strlen (l : list byte) : take (Z.to_nat (strlen l)) l = c_str l.
Proof.
  unfold strlen. rewrite Nat2Z.id.
  destruct (c_str_prefix l) as [r Hr].
  transitivity (take (length (c_str l)) (c_str l ++ r));
    [by rewrite <- Hr | apply take_app_length].
Qed.

Lemma nul_free_app (l k : list byte) :
  nul_free l -> nul_free k -> nul_free (l ++ k).
Proof. unfold nul_free. intros. by apply Forall_app. Qed.

(** ** The heap *)

Lemma length_fresh (m : heap) (from count : nat) :
  length (fresh m from count) = count.
Proof. unfold fresh. by rewrite length_map, length_seq. Qed.

Lemma realloc_grows (m : heap) (p d : list byte) (n : Z) :
  realloc m p n = Some d -> Z.of_nat (length p) <= n ->
  Z.of_nat (length d) = n /\ exists junk, d = p ++ junk.
Proof.
  unfold realloc. destruct (can_alloc m n); [|done].
  intros [= <-] Hle. rewrite take_ge by lia. split.
  - rewrite length_app, length_fresh. lia.
  - by eexists.
Qed.

Lemma malloc_length (m : heap) (n : Z) (d : list byte) :
  malloc m n = Some d -> 0 <= n -> Z.of_nat (length d) = n.
Proof.
  unfold malloc. destruct (can_alloc m n); [|done].
  intros [= <-] Hn. rewrite length_fresh. lia.
Qed.

Section Proofs.

Variable P : platform.

Lemma SIZE_MAX_large : 65535 <= SIZE_MAX P.
Proof. apply SIZE_MAX_min. Qed.

Lemma wrap_small (x : Z) : 0 <= x <= SIZE_MAX P -> wrap P x = x.
Proof. intros. unfold wrap. apply Z.mod_small. lia. Qed.

(** ** Growing the buffer *)

Lemma grown_refl (this : kstr) : grown this this.
Proof.
  unfold grown. repeat split; try lia. exists []. by rewrite app_nil_r.
Qed.

Lemma grown_trans (a b c : kstr) : grown a b -> grown b c -> grown a c.
Proof.
  intros (?&?&?&?&j1&Hj1) (?&?&?&?&j2&Hj2). unfold grown.
  repeat split; try congruence; try lia.
  exists (j1 ++ j2). by rewrite Hj2, Hj1, app_assoc.
Qed.

Lemma kstr_grow_cases (m : heap) (this : kstr) :
  block_ok P this ->
  match kstr_grow P m this with
  | Ok this' =>
      data_size this <> SIZE_MAX P
      /\ can_alloc m (next_size P (data_size this)) = true
      /\ data_size this' = next_size P (data_size this)
      /\ data_size this < data_size this'
      /\ block_ok P this' /\ grown this this'
  | Aborted =>
      data_size this = SIZE_MAX P
      \/ can_alloc m (next_size P (data_size this)) = false
  | _ => False
  end.
Proof.
  intros [Hlen Hsz]. pose proof SIZE_MAX_large as HM.
  unfold kstr_grow, kstr_abort, grow_factor.
  destruct (Z.eqb_spec (data_size this) (SIZE_MAX P)) as [->|Hne]; [by left|].
  assert (Hnew : (if SIZE_MAX P / 2 <? data_size this then SIZE_MAX P
                  else wrap P (data_size this * 2))
                 = next_size P (data_size this)).
  { unfold next_size. destruct (Z.ltb_spec (SIZE_MAX P / 2) (data_size this));
      [done|]. apply wrap_small. Z.div_mod_to_equations. lia. }
  rewrite Hnew.
  assert (Hlt : data_size this < next_size P (data_size this) <= SIZE_MAX P).
  { unfold next_size.
    destruct (Z.ltb_spec (SIZE_MAX P / 2) (data_size this));
      Z.div_mod_to_equations; lia. }
  destruct (realloc m (data this) (next_size P (data_size this))) as [d|] eqn:Hr.
  - pose proof Hr as Hc. unfold realloc in Hc.
    destruct (can_alloc m (next_size P (data_size this))) eqn:Hca; [|done].
    apply realloc_grows in Hr as [Hd [junk ->]]; [|lia].
    repeat split; simpl; try done; try lia. by exists junk.
  - right. unfold realloc in Hr.
    by destruct (can_alloc m (next_size P (data_size this))).
Qed.

Lemma grow_until_ok (fuel : nat) (m : heap) (this this' : kstr) (count : Z) :
  block_ok P this -> used this <= data_size this -> 0 <= used this ->
  grow_until P fuel m this count = Ok this' ->
  block_ok P this' /\ grown this this' /\ count <= data_size this' - used this'.
Proof.
  revert this. induction fuel as [|fuel IH]; intros this Hb Hu Hu0; simpl.
  - unfold kstr_available. rewrite wrap_small by (destruct Hb; lia).
    destruct (Z.ltb_spec (data_size this - used this) count); [done|].
    intros [= <-]. auto using grown_refl.
  - unfold kstr_available. rewrite wrap_small by (destruct Hb; lia).
    destruct (Z.ltb_spec (data_size this - used this) count).
    + pose proof (kstr_grow_cases m this Hb) as Hg.
      destruct (kstr_grow P m this) as [mid| | |]; simpl; try done.
      destruct Hg as (_ & _ & _ & Hlt & Hb' & Hgr). intros Hrun.
      pose proof Hgr as (Hu' & _).
      apply IH in Hrun as (? & ? & ?); [|done|lia|lia].
      eauto using grown_trans.
    + intros [= <-]. auto using grown_refl.
Qed.

(** The loop leaves by its exit or by [abort()]: the unrolling is long
    enough for every buffer of one byte or more. *)
Lemma grow_until_at_max (fuel : nat) (m : heap) (this : kstr) (count : Z) :
  data_size this = SIZE_MAX P ->
  grow_until P (S fuel) m this count <> OutOfFuel
  /\ grow_until P (S fuel) m this count <> Undefined.
Proof.
  intros Hmax. simpl. destruct (kstr_available P this <? count); [|done].
  unfold kstr_grow. rewrite Hmax, Z.eqb_refl. done.
Qed.

Lemma grow_until_fuel (fuel : nat) (m : heap) (this : kstr) (count : Z) :
  block_ok P this ->
  Z.log2 (SIZE_MAX P) - Z.log2 (data_size this) + 2 <= Z.of_nat fuel ->
  grow_until P fuel m this count <> OutOfFuel
  /\ grow_until P fuel m this count <> Undefined.
Proof.
  revert this. induction fuel as [|fuel IH]; intros this Hb Hfuel.
  - destruct Hb as [_ Hsz].
    pose proof (Z.log2_le_mono (data_size this) (SIZE_MAX P)). lia.
  - simpl. destruct (kstr_available P this <? count); [|done].
    pose proof (kstr_grow_cases m this Hb) as Hg.
    destruct (kstr_grow P m this) as [mid| | |]; simpl; try done.
    destruct Hg as (Hne & _ & Hsz & Hlt & Hb' & _).
    unfold next_size in Hsz.
    destruct (Z.ltb_spec (SIZE_MAX P / 2) (data_size this)).
    + destruct fuel as [|fuel].
      * destruct Hb as [_ Hr].
        pose proof (Z.log2_le_mono (data_size this) (SIZE_MAX P)). lia.
      * by apply grow_until_at_max.
    + apply IH; [done|]. rewrite Hsz.
      replace (data_size this * 2) with (2 * data_size this) by lia.
      rewrite Z.log2_double by (destruct Hb; lia). lia.
Qed.

Lemma grow_rounds_enough (m : heap) (this : kstr) (count : Z) :
  block_ok P this ->
  grow_until P (grow_rounds P) m this count <> OutOfFuel
  /\ grow_until P (grow_rounds P) m this count <> Undefined.
Proof.
  intros Hb. apply grow_until_fuel; [done|]. unfold grow_rounds.
  pose proof (Z.log2_nonneg (SIZE_MAX P)).
  pose proof (Z.log2_nonneg (data_size this)). lia.
Qed.

(** ** Writing at the end of the value *)

Lemma splice_length (d w : list byte) (k : nat) :
  (k + length w <= length d)%nat ->
  length (take k d ++ w ++ drop (k + length w) d) = length d.
Proof.
  intros. rewrite !length_app, length_take, length_drop. lia.
Qed.

Lemma splice_take (d w rest : list byte) (k : nat) :
  (k <= length d)%nat ->
  take (k + length w) (take k d ++ w ++ rest) = take k d ++ w.
Proof.
  intros. rewrite take_app_add' by (rewrite length_take; lia).
  by rewrite take_app_length.
Qed.

Lemma memcpy_ok (dst src : list byte) (off n : Z) :
  0 <= off -> 0 <= n -> off + n <= Z.of_nat (length dst) ->
  n <= Z.of_nat (length src) ->
  memcpy dst off src n
  = Ok (take (Z.to_nat off) dst ++ take (Z.to_nat n) src
          ++ drop (Z.to_nat off + length (take (Z.to_nat n) src)) dst).
Proof.
  intros. unfold memcpy.
  destruct (Z.leb_spec 0 off); [|lia].
  destruct (Z.leb_spec (off + n) (Z.of_nat (length dst))); [|lia].
  destruct (Z.leb_spec n (Z.of_nat (length src))); [|lia]. simpl.
  rewrite length_take. do 4 f_equal. lia.
Qed.

Lemma store_ok (dst : list byte) (i : Z) (b : byte) :
  0 <= i < Z.of_nat (length dst) ->
  store dst i b = Ok (<[Z.to_nat i := b]> dst).
Proof.
  intros. unfold store.
  destruct (Z.leb_spec 0 i); [|lia].
  destruct (Z.ltb_spec i (Z.of_nat (length dst))); [done|lia].
Qed.

Lemma rep_inv_block (this : kstr) : rep_inv P this -> block_ok P this.
Proof. intros [? ? ? ? ? ? ?]. unfold block_ok. lia. Qed.

Lemma rep_inv_split (this : kstr) :
  rep_inv P this ->
  data this = content this ++ nul :: drop (S (Z.to_nat (used this - 1))) (data this).
Proof.
  intros [? Ht ? ? ? ? ?]. unfold content. by rewrite take_drop_middle.
Qed.

Lemma content_length (this : kstr) :
  rep_inv P this -> Z.of_nat (length (content this)) = used this - 1.
Proof.
  intros [? ? ? ? ? ? ?]. unfold content. rewrite length_take. lia.
Qed.

(** ** [kstr_add_chars] *)

Lemma kstr_add_chars_spec (m : heap) (this : kstr) (chars : list byte)
    (count : Z) (visible : bool) :
  rep_inv P this -> 0 < count <= Z.of_nat (length chars) ->
  match kstr_add_chars P m this (Some chars) count visible with
  | Ok this' =>
      rep_inv P this'
      /\ used this' = used this + count
      /\ width this' = (if visible then width this + count else width this)
      /\ basename this' = None
      /\ content this' = content this ++ take (Z.to_nat count) chars
      /\ data_size this <= data_size this'
  | Aborted => True
  | _ => False
  end.
Proof.
  intros Hinv Hcount. pose proof (rep_inv_block _ Hinv) as Hb.
  pose proof SIZE_MAX_large as HM.
  destruct Hinv as [Hu1 Hterm Hw Hcap Hmin Hmax Hlen].
  unfold kstr_add_chars.
  destruct (Z.eqb_spec count 0); [lia|].
  pose proof (grow_rounds_enough m this count Hb) as [Hfuel Hdef].
  destruct (grow_until P (grow_rounds P) m this count) as [mid| | |] eqn:Hg;
    simpl; try done.
  apply grow_until_ok in Hg as ([Hlen' Hsz'] & Hgr & Havail); [|done|lia|lia].
  destruct Hgr as (Hu & Hwd & _ & Hds & junk & Hdata).
  rewrite Hu, Hwd in *.
  rewrite memcpy_ok by lia. simpl.
  set (src := take (Z.to_nat count) chars).
  assert (Hsrc : length src = Z.to_nat count)
    by (unfold src; rewrite length_take; lia).
  rewrite (wrap_small (used this + count)) by lia.
  rewrite (wrap_small (used this + count - 1)) by lia.
  assert (Hsplice : length (take (Z.to_nat (used this - 1)) (data mid) ++ src
             ++ drop (Z.to_nat (used this - 1) + length src) (data mid))
           = length (data mid)) by (apply splice_length; lia).
  rewrite store_ok by (rewrite Hsplice; lia). simpl.
  assert (Hidx : Z.to_nat (used this + count - 1)
                 = (Z.to_nat (used this - 1) + length src)%nat) by lia.
  split; [split; simpl|simpl].
  - lia.
  - apply list_lookup_insert_eq. rewrite Hsplice. lia.
  - destruct visible; [rewrite wrap_small|]; lia.
  - lia.
  - lia.
  - lia.
  - rewrite length_insert, Hsplice. lia.
  - repeat split.
    + destruct visible; [apply wrap_small|]; lia.
    + unfold content. simpl. rewrite take_insert_ge by lia.
      rewrite Hidx, splice_take by lia.
      f_equal. rewrite Hdata. apply take_app_le. lia.
    + lia.
Qed.

(** ** [kstr_add_vfmt] *)

Lemma rendering_bound (fmt : option (list byte)) (args : list parg) (out : list byte) :
  rendering P fmt args = Some out -> Z.of_nat (length out) <= INT_MAX P.
Proof.
  unfold rendering.
  destruct (render P (c_str <$> fmt) args) as [o|]; [|done].
  destruct (Z.leb_spec (Z.of_nat (length o)) (INT_MAX P)); [|done].
  by intros [= <-].
Qed.

(** The count [kstr_add_vfmt] computes from the dry run is the length of
    what the second [vsnprintf] stores before the nul. *)
Lemma vfmt_count (fmt : option (list byte)) (args : list parg) :
  (if vsnprintf_length P fmt args <? 0 then 0
   else wrap P (vsnprintf_length P fmt args))
  = Z.of_nat (length (default [] (rendering P fmt args)))
  /\ fmt_length P fmt args
     = Z.of_nat (length (default [] (rendering P fmt args)))
  /\ Z.of_nat (length (default [] (rendering P fmt args))) <= INT_MAX P.
Proof.
  pose proof (INT_MAX_min P). pose proof (INT_MAX_fits P).
  unfold vsnprintf_length, fmt_length.
  destruct (rendering P fmt args) as [out|] eqn:Hr; simpl.
  - apply rendering_bound in Hr.
    destruct (Z.ltb_spec (Z.of_nat (length out)) 0); [lia|].
    rewrite wrap_small by lia. done.
  - repeat split; lia.
Qed.

Lemma kstr_add_vfmt_spec (m : heap) (this : kstr) (fmt : option (list byte))
    (args : list parg) :
  rep_inv P this ->
  match kstr_add_vfmt P m this fmt args with
  | Ok this' =>
      rep_inv P this'
      /\ used this' = used this + fmt_length P fmt args
      /\ width this' = width this + fmt_length P fmt args
      /\ basename this' = None
      /\ content this' = content this ++ default [] (rendering P fmt args)
      /\ data_size this <= data_size this'
  | Aborted => True
  | _ => False
  end.
Proof.
  intros Hinv. pose proof (rep_inv_block _ Hinv) as Hb.
  pose proof SIZE_MAX_large as HM. pose proof (INT_MAX_fits P) as HI.
  destruct Hinv as [Hu1 Hterm Hw Hcap Hmin Hmax Hlen].
  unfold kstr_add_vfmt.
  destruct (vfmt_count fmt args) as (-> & -> & Hbound).
  set (out := default [] (rendering P fmt args)) in *.
  set (count := Z.of_nat (length out)) in *.
  pose proof (grow_rounds_enough m this count Hb) as [Hfuel Hdef].
  destruct (grow_until P (grow_rounds P) m this count) as [mid| | |] eqn:Hg;
    simpl; try done.
  apply grow_until_ok in Hg as ([Hlen' Hsz'] & Hgr & Havail); [|done|lia|lia].
  destruct Hgr as (Hu & Hwd & _ & Hds & junk & Hdata).
  rewrite Hu, Hwd in *.
  unfold vsnprintf_store. fold out.
  rewrite (wrap_small (count + 1)) by lia.
  destruct (Z.eqb_spec (count + 1) 0); [lia|].
  replace (take (Z.to_nat (count + 1 - 1)) out) with out
    by (symmetry; apply take_ge; lia).
  rewrite memcpy_ok by (rewrite ?length_app; simpl; lia). simpl.
  rewrite Nat2Z.id, firstn_all.
  rewrite !(wrap_small (_ + count)) by lia.
  assert (Hsplice : length (take (Z.to_nat (used this - 1)) (data mid)
             ++ (out ++ [nul])
             ++ drop (Z.to_nat (used this - 1) + length (out ++ [nul])) (data mid))
           = length (data mid))
    by (apply splice_length; rewrite length_app; simpl; lia).
  split; [split; simpl|simpl].
  - lia.
  - rewrite lookup_app_r by (rewrite length_take; lia).
    rewrite length_take, lookup_app_l by (rewrite length_app; simpl; lia).
    rewrite lookup_app_r by lia.
    replace (Z.to_nat (used this + count - 1)
             - Z.to_nat (used this - 1) `min` length (data mid)
             - length out)%nat with 0%nat by lia.
    done.
  - lia.
  - lia.
  - lia.
  - lia.
  - rewrite Hsplice. lia.
  - repeat split.
    + unfold content. simpl.
      replace (Z.to_nat (used this + count - 1))
        with (Z.to_nat (used this - 1) + length out)%nat by lia.
      rewrite <- (app_assoc out), splice_take by lia.
      f_equal. rewrite Hdata. apply take_app_le. lia.
    + lia.
Qed.

Lemma grow_until_exit (fuel : nat) (m : heap) (this : kstr) (count : Z) :
  count <= kstr_available P this -> grow_until P fuel m this count = Ok this.
Proof.
  intros. destruct fuel; simpl;
    by destruct (Z.ltb_spec (kstr_available P this) count); [lia|].
Qed.

(** The loop ends in [abort()] only when the bytes asked for do not fit a
    [size_t], or the heap refuses a request. *)
Lemma grow_until_served (fuel : nat) (m : heap) (this : kstr) (count : Z) :
  block_ok P this -> 0 <= used this <= data_size this ->
  used this + count <= SIZE_MAX P -> unlimited m ->
  grow_until P fuel m this count <> Aborted.
Proof.
  intros Hb Hu Hfit Hm. revert this Hb Hu Hfit.
  induction fuel as [|fuel IH]; intros this Hb Hu Hfit; simpl.
  - by destruct (kstr_available P this <? count).
  - unfold kstr_available. rewrite wrap_small by (destruct Hb; lia).
    destruct (Z.ltb_spec (data_size this - used this) count); [|done].
    pose proof (kstr_grow_cases m this Hb) as Hg.
    destruct (kstr_grow P m this) as [mid| | |]; simpl; try done.
    + destruct Hg as (_ & _ & _ & Hlt & Hb' & Hu' & _).
      apply IH; [done|lia|lia].
    + destruct Hg as [Hmax|Hno]; [lia|]. by rewrite Hm in Hno.
Qed.

(** ** The other operations *)

Lemma kstr_reset_spec (this : kstr) :
  rep_inv P this ->
  exists this', kstr_reset this = Ok this'
    /\ rep_inv P this' /\ used this' = 1 /\ width this' = 0
    /\ basename this' = None /\ content this' = []
    /\ data_size this' = data_size this.
Proof.
  intros [Hu1 Hterm Hw Hcap Hmin Hmax Hlen]. unfold kstr_reset.
  rewrite store_ok by lia. simpl. eexists. split; [done|].
  split; [split; simpl; try lia|done].
  - apply list_lookup_insert_eq. lia.
  - rewrite length_insert. lia.
Qed.

Lemma kstr_add_text_spec (m : heap) (this : kstr) (text : option (list byte)) :
  rep_inv P this ->
  match kstr_add_text P m this text with
  | Ok this' =>
      rep_inv P this'
      /\ used this' = used this + text_length text
      /\ width this' = width this + text_length text
      /\ content this' = content this ++ text_value text
      /\ data_size this <= data_size this'
      /\ (basename this' = None \/ this' = this /\ text_length text = 0)
  | Aborted => True
  | _ => False
  end.
Proof.
  intros Hinv. unfold kstr_add_text.
  destruct text as [t|]; cbn beta iota delta [text_length text_value].
  - pose proof (strlen_le t) as Hlen.
    destruct (Z.eq_dec (strlen t) 0) as [Hz|Hnz].
    + unfold kstr_add_chars. rewrite Hz. simpl.
      assert (c_str t = []) as ->
        by (apply length_zero_iff_nil; unfold strlen in Hz; lia).
      rewrite app_nil_r. split_and!; try done; try lia. by right.
    + pose proof (kstr_add_chars_spec m this t (strlen t) true Hinv) as Hs.
      destruct (kstr_add_chars P m this (Some t) (strlen t) true);
        try (apply Hs; lia).
      destruct Hs as (? & ? & ? & ? & ? & ?); [lia|].
      rewrite take_strlen in *. split_and!; try done. by left.
  - rewrite app_nil_r. split_and!; try done; try lia. by right.
Qed.

Lemma kstr_add_text_noop (m : heap) (this : kstr) (text : option (list byte)) :
  text_length text = 0 -> kstr_add_text P m this text = Ok this.
Proof.
  unfold kstr_add_text, kstr_add_chars.
  destruct text as [t|]; simpl; [|done]. by intros ->.
Qed.

(** A control code is appended whole and counts no width. *)
Lemma add_code_spec (m : heap) (this : kstr) (code : list byte) :
  rep_inv P this -> nul_free code -> code <> [] ->
  match kstr_add_chars P m this (Some code) (strlen code) false with
  | Ok this' =>
      rep_inv P this'
      /\ used this' = used this + Z.of_nat (length code)
      /\ width this' = width this
      /\ basename this' = None
      /\ content this' = content this ++ code
      /\ data_size this <= data_size this'
  | Aborted => True
  | _ => False
  end.
Proof.
  intros Hinv Hnf Hne.
  assert (Hlen : strlen code = Z.of_nat (length code))
    by (unfold strlen; by rewrite c_str_id).
  assert (0 < length code)%nat by (destruct code; [done|simpl; lia]).
  pose proof (kstr_add_chars_spec m this code (strlen code) false Hinv) as Hs.
  destruct (kstr_add_chars P m this (Some code) (strlen code) false);
    try (apply Hs; lia).
  destruct Hs as (? & ? & ? & ? & Hc & ?); [lia|].
  rewrite Hlen, Nat2Z.id, firstn_all in Hc. rewrite <- Hlen. done.
Qed.

(** ** The styling operations *)

Lemma color_check_valid (color : Z) :
  valid_color color ->
  (to_uintmax P kstr_num_colors <=? to_uintmax P color) = false.
Proof.
  unfold valid_color, kstr_num_colors, to_uintmax. intros Hc.
  pose proof (UINTMAX_MAX_min P). pose proof (INT_MAX_min P).
  rewrite !Z.mod_small by lia. apply Z.leb_gt. lia.
Qed.

Lemma color_check_invalid (color : Z) :
  color_repr P color -> ~ valid_color color ->
  (to_uintmax P kstr_num_colors <=? to_uintmax P color) = true.
Proof.
  unfold color_repr, valid_color, kstr_num_colors, to_uintmax. intros Hr Hc.
  pose proof (UINTMAX_MAX_min P). pose proof (INT_MAX_min P).
  rewrite (Z.mod_small 9) by lia. apply Z.leb_le.
  destruct (Z.lt_ge_cases color 0).
  - rewrite <- (Z.mod_add color 1) by lia. rewrite Z.mod_small; lia.
  - rewrite Z.mod_small; lia.
Qed.

Lemma color_check_passed (color : Z) :
  color_repr P color ->
  (to_uintmax P kstr_num_colors <=? to_uintmax P color) = false ->
  valid_color color.
Proof.
  intros Hr Hc. destruct (decide (0 <= color < kstr_num_colors)) as [|Hn];
    [done|]. by rewrite (color_check_invalid _ Hr Hn) in Hc.
Qed.

Lemma code_lookup (codes : list (list byte)) (color : Z) :
  codes = fg_codes \/ codes = bg_codes -> valid_color color ->
  exists code, codes !! Z.to_nat color = Some code
    /\ nul_free code /\ length code = 5%nat.
Proof.
  unfold valid_color, kstr_num_colors. intros Hcodes Hc.
  assert (color = 0 \/ color = 1 \/ color = 2 \/ color = 3 \/ color = 4
          \/ color = 5 \/ color = 6 \/ color = 7 \/ color = 8) as Hd by lia.
  destruct Hd as [->|[->|[->|[->|[->|[->|[->|[->| ->]]]]]]]];
    destruct Hcodes as [-> | ->]; eexists; (split; [reflexivity|]);
    (split; [by repeat constructor|done]).
Qed.

Lemma bold_code_shape (bold : bool) :
  nul_free (bold_code bold) /\ bold_code bold <> [].
Proof. destruct bold; (split; [by repeat constructor|done]). Qed.

Lemma reset_code_shape : nul_free reset_code /\ reset_code <> [].
Proof. split; [by repeat constructor|done]. Qed.

Lemma codes_shape (codes : list (list byte)) :
  codes = fg_codes \/ codes = bg_codes ->
  Forall (fun code => nul_free code /\ length code = 5%nat) codes.
Proof.
  intros [-> | ->]; repeat (constructor; [by split; [repeat constructor|]|]);
    constructor.
Qed.

(** A color operation, once past its check. *)
Lemma add_color_spec (m : heap) (this : kstr) (codes : list (list byte))
    (color : Z) :
  codes = fg_codes \/ codes = bg_codes -> rep_inv P this ->
  match
    (if to_uintmax P kstr_num_colors <=? to_uintmax P color then kstr_abort
     else match codes !! Z.to_nat color with
          | None => Undefined
          | Some chars => kstr_add_chars P m this (Some chars) (strlen chars) false
          end)
  with
  | Ok this' =>
      rep_inv P this'
      /\ (color_repr P color -> valid_color color)
      /\ used this' = used this
           + Z.of_nat (length (default [] (codes !! Z.to_nat color)))
      /\ width this' = width this
      /\ basename this' = None
      /\ content this' = content this ++ default [] (codes !! Z.to_nat color)
      /\ data_size this <= data_size this'
  | Aborted => True
  | Undefined => ~ color_repr P color
  | OutOfFuel => False
  end.
Proof.
  intros Hcodes Hinv.
  destruct (to_uintmax P kstr_num_colors <=? to_uintmax P color) eqn:Hcheck;
    [done|].
  destruct (codes !! Z.to_nat color) as [code|] eqn:Hl.
  - pose proof (codes_shape codes Hcodes) as Hshape.
    eapply Forall_lookup_1 in Hshape as [Hnf Hlen]; [|done].
    assert (Hne : code <> []) by (by destruct code).
    pose proof (add_code_spec m this code Hinv Hnf Hne) as Hs.
    destruct (kstr_add_chars P m this (Some code) (strlen code) false);
      try by destruct Hs.
    destruct Hs as (? & ? & ? & ? & ? & ?).
    split_and!; try done. intros Hr. by apply color_check_passed.
  - intros Hr. apply color_check_passed in Hcheck; [|done].
    destruct (code_lookup codes color Hcodes Hcheck) as (? & ? & _). congruence.
Qed.

(** ** Every call *)

Lemma text_length_value (text : option (list byte)) :
  text_length text = Z.of_nat (length (text_value text)).
Proof. by destruct text. Qed.

Lemma call_spec (m : heap) (o : op) (this : kstr) :
  rep_inv P this ->
  match call P m o this with
  | Ok this' =>
      rep_inv P this'
      /\ (op_typed P o -> valid_op o)
      /\ used this' = (if resets o then 1 else used this)
                       + Z.of_nat (length (appended P o))
      /\ width this' = visible_width P (width this) o
      /\ content this' = (if resets o then [] else content this) ++ appended P o
      /\ data_size this <= data_size this'
      /\ (basename this' = None
          \/ this' = this /\ exists t, o = add_text t /\ text_length t = 0)
  | Aborted => True
  | Undefined => ~ op_typed P o
  | OutOfFuel => False
  end.
Proof.
  intros Hinv. destruct o as [text|fmt args|text|fmt args|bold|color|color|];
    unfold visible_width; simpl.
  - unfold kstr_set_text.
    destruct (kstr_reset_spec this Hinv) as (mid & -> & Hi & Hu & Hw & Hb & Hc & Hd).
    simpl. pose proof (kstr_add_text_spec m mid text Hi) as Hs.
    destruct (kstr_add_text P m mid text); try done.
    destruct Hs as (? & Hu' & Hw' & Hc' & ? & Hb').
    rewrite Hu, Hw, Hc, Hd, <- text_length_value in *.
    split_and!; try done; try lia. left.
    destruct Hb' as [|[-> _]]; done.
  - unfold kstr_set_fmt, kstr_set_vfmt.
    destruct (kstr_reset_spec this Hinv) as (mid & -> & Hi & Hu & Hw & Hb & Hc & Hd).
    simpl. pose proof (kstr_add_vfmt_spec m mid fmt args Hi) as Hs.
    destruct (kstr_add_vfmt P m mid fmt args); try done.
    destruct Hs as (? & Hu' & Hw' & Hb' & Hc' & ?).
    destruct (vfmt_count fmt args) as (_ & Hf & _).
    rewrite Hu, Hw, Hc, Hd, <- ?Hf in *.
    split_and!; try done; try lia. by left.
  - pose proof (kstr_add_text_spec m this text Hinv) as Hs.
    destruct (kstr_add_text P m this text); try done.
    destruct Hs as (? & Hu' & Hw' & Hc' & ? & Hb').
    rewrite <- text_length_value.
    split_and!; try done; try lia. destruct Hb' as [|[-> ?]]; [by left|right; eauto].
  - unfold kstr_add_fmt.
    pose proof (kstr_add_vfmt_spec m this fmt args Hinv) as Hs.
    destruct (kstr_add_vfmt P m this fmt args); try done.
    destruct Hs as (? & Hu' & Hw' & Hb' & Hc' & ?).
    destruct (vfmt_count fmt args) as (_ & Hf & _). rewrite <- Hf.
    split_and!; try done; try lia. by left.
  - unfold kstr_add_bold. destruct (bold_code_shape bold) as [Hnf Hne].
    pose proof (add_code_spec m this (bold_code bold) Hinv Hnf Hne) as Hs.
    change (if bold then ESC :: bytes "[1m" else ESC :: bytes "[22m")
      with (bold_code bold).
    cbn zeta.
    destruct (kstr_add_chars P m this (Some (bold_code bold))
                (strlen (bold_code bold)) false); try done.
    destruct Hs as (? & ? & ? & ? & ? & ?). split_and!; try done; try lia. by left.
  - unfold kstr_add_fg.
    pose proof (add_color_spec m this fg_codes color (or_introl eq_refl) Hinv)
      as Hs.
    destruct (if to_uintmax P kstr_num_colors <=? to_uintmax P color
              then _ else _); try done.
    destruct Hs as (? & ? & ? & ? & ? & ? & ?). split_and!; try done; try lia. by left.
  - unfold kstr_add_bg.
    pose proof (add_color_spec m this bg_codes color (or_intror eq_refl) Hinv)
      as Hs.
    destruct (if to_uintmax P kstr_num_colors <=? to_uintmax P color
              then _ else _); try done.
    destruct Hs as (? & ? & ? & ? & ? & ? & ?). split_and!; try done; try lia. by left.
  - unfold kstr_add_reset. destruct reset_code_shape as [Hnf Hne].
    pose proof (add_code_spec m this reset_code Hinv Hnf Hne) as Hs.
    change (ESC :: bytes "[0m") with reset_code. cbn zeta.
    destruct (kstr_add_chars P m this (Some reset_code) (strlen reset_code)
                false); try done.
    destruct Hs as (? & ? & ? & ? & ? & ?). split_and!; try done; try lia. by left.
Qed.

(** ** Creation, copy, basename *)

Lemma kstr_new_spec (m : heap) (text : option (list byte)) :
  match kstr_new P m text with
  | Ok this =>
      rep_inv P this
      /\ used this = 1 + text_length text
      /\ width this = text_length text
      /\ content this = text_value text
      /\ basename this = None
  | Aborted => True
  | _ => False
  end.
Proof.
  pose proof SIZE_MAX_large as HM. unfold kstr_new, kstr_abort, init_size.
  destruct (can_alloc m (sizeof_kstr P)); [|done].
  destruct (malloc m 64) as [block|] eqn:Hblock; [|done].
  apply malloc_length in Hblock; [|lia].
  rewrite store_ok by lia. simpl.
  set (this0 := {| data_size := 64; used := 1; width := 0;
                   basename := None; data := <[Z.to_nat 0:=nul]> block |}).
  assert (Hinv : rep_inv P this0).
  { split; simpl; try lia.
    - apply list_lookup_insert_eq. lia.
    - rewrite length_insert. lia. }
  pose proof (kstr_add_text_spec m this0 text Hinv) as Hs.
  destruct (kstr_add_text P m this0 text); try done.
  destruct Hs as (? & Hu & Hw & Hc & ? & Hb). simpl in *.
  split_and!; try done; try lia. destruct Hb as [|[-> _]]; done.
Qed.

Lemma kstr_copy_spec (m : heap) (this : kstr) :
  rep_inv P this ->
  match kstr_copy P m this with
  | Ok this' =>
      rep_inv P this'
      /\ data_size this' = data_size this /\ used this' = used this
      /\ width this' = width this /\ data this' = data this
      /\ basename this' = None
  | Aborted => True
  | _ => False
  end.
Proof.
  intros [Hu1 Hterm Hw Hcap Hmin Hmax Hlen]. unfold kstr_copy, kstr_abort.
  destruct (can_alloc m (sizeof_kstr P)); [|done].
  destruct (malloc m (data_size this)) as [block|] eqn:Hblock; [|done].
  apply malloc_length in Hblock; [|lia].
  rewrite memcpy_ok by lia. simpl.
  rewrite take_ge, drop_ge, app_nil_r by lia.
  split_and!; try done.
Qed.

Lemma kstr_basename_spec (m : heap) (this : kstr) :
  match kstr_basename P m this with
  | Ok (b, this') =>
      data_size this' = data_size this /\ used this' = used this
      /\ width this' = width this /\ data this' = data this
      /\ basename this' = Some b
      /\ (basename this = Some b /\ this' = this
          \/ basename this = None
             /\ b = c_str (libc_basename P (kstr_get this)))
  | Aborted => basename this = None
  | _ => False
  end.
Proof.
  unfold kstr_basename, kstr_get_copy, kstr_abort, strdup, kstr_get.
  destruct (basename this) as [b|] eqn:Hb; [split_and!; auto|].
  destruct (can_alloc m (strlen (data this) + 1)); [|done]. simpl.
  destruct (can_alloc m _); [|done].
  split_and!; auto.
Qed.

(** ** Calls that return *)

Lemma kstr_add_chars_served (m : heap) (this : kstr) (chars : list byte)
    (count : Z) (visible : bool) :
  rep_inv P this -> unlimited m -> used this + count <= SIZE_MAX P ->
  kstr_add_chars P m this (Some chars) count visible <> Aborted.
Proof.
  intros Hinv Hm Hfit. pose proof (rep_inv_block _ Hinv) as Hb.
  destruct Hinv as [Hu1 Hterm Hw Hcap Hmin Hmax Hlen].
  unfold kstr_add_chars. destruct (count =? 0); [done|].
  pose proof (grow_until_served (grow_rounds P) m this count Hb) as Hg.
  destruct (grow_until P (grow_rounds P) m this count) as [mid| | |]; simpl;
    try done.
  - unfold memcpy. destruct (_ && _); simpl; [|done].
    unfold store. by destruct (_ && _).
  - apply Hg; [lia|done|done].
Qed.

Lemma kstr_add_vfmt_served (m : heap) (this : kstr) (fmt : option (list byte))
    (args : list parg) :
  rep_inv P this -> unlimited m ->
  used this + fmt_length P fmt args <= SIZE_MAX P ->
  kstr_add_vfmt P m this fmt args <> Aborted.
Proof.
  intros Hinv Hm Hfit. pose proof (rep_inv_block _ Hinv) as Hb.
  destruct Hinv as [Hu1 Hterm Hw Hcap Hmin Hmax Hlen].
  unfold kstr_add_vfmt. destruct (vfmt_count fmt args) as (-> & Hf & _).
  rewrite Hf in Hfit.
  pose proof (grow_until_served (grow_rounds P) m this
                (Z.of_nat (length (default [] (rendering P fmt args)))) Hb) as Hg.
  destruct (grow_until P (grow_rounds P) m this _) as [mid| | |]; simpl;
    try done.
  - unfold vsnprintf_store, memcpy. destruct (_ =? 0); [done|].
    by destruct (_ && _).
  - apply Hg; [lia|done|done].
Qed.

Lemma kstr_add_text_served (m : heap) (this : kstr) (text : option (list byte)) :
  rep_inv P this -> unlimited m ->
  used this + text_length text <= SIZE_MAX P ->
  kstr_add_text P m this text <> Aborted.
Proof.
  intros Hinv Hm Hfit. unfold kstr_add_text.
  destruct text as [t|]; [|done]. by apply kstr_add_chars_served.
Qed.

Lemma add_code_served (m : heap) (this : kstr) (code : list byte) :
  rep_inv P this -> unlimited m ->
  used this + Z.of_nat (length code) <= SIZE_MAX P ->
  kstr_add_chars P m this (Some code) (strlen code) false <> Aborted.
Proof.
  intros Hinv Hm Hfit. apply kstr_add_chars_served; [done|done|].
  pose proof (strlen_le code). lia.
Qed.

Lemma call_served (m : heap) (o : op) (this : kstr) :
  rep_inv P this -> unlimited m -> valid_op o ->
  (if resets o then 1 else used this) + Z.of_nat (length (appended P o))
    <= SIZE_MAX P ->
  call P m o this <> Aborted.
Proof.
  intros Hinv Hm Hvalid Hfit.
  destruct o as [text|fmt args|text|fmt args|bold|color|color|];
    simpl in Hfit, Hvalid |- *.
  - unfold kstr_set_text.
    destruct (kstr_reset_spec this Hinv) as (mid & -> & Hi & Hu & _). simpl.
    apply kstr_add_text_served; [done|done|].
    rewrite Hu, text_length_value. done.
  - unfold kstr_set_fmt, kstr_set_vfmt.
    destruct (kstr_reset_spec this Hinv) as (mid & -> & Hi & Hu & _). simpl.
    apply kstr_add_vfmt_served; [done|done|].
    destruct (vfmt_count fmt args) as (_ & -> & _). by rewrite Hu.
  - apply kstr_add_text_served; [done|done|]. by rewrite text_length_value.
  - apply kstr_add_vfmt_served; [done|done|].
    by destruct (vfmt_count fmt args) as (_ & -> & _).
  - by apply (add_code_served m this (bold_code bold)).
  - unfold kstr_add_fg. rewrite color_check_valid by done.
    destruct (code_lookup fg_codes color (or_introl eq_refl) Hvalid)
      as (code & Hl & _).
    rewrite Hl in Hfit |- *. by apply add_code_served.
  - unfold kstr_add_bg. rewrite color_check_valid by done.
    destruct (code_lookup bg_codes color (or_intror eq_refl) Hvalid)
      as (code & Hl & _).
    rewrite Hl in Hfit |- *. by apply add_code_served.
  - by apply (add_code_served m this reset_code).
Qed.

Lemma valid_op_typed (o : op) : valid_op o -> op_typed P o.
Proof.
  destruct o; simpl; try done;
    unfold valid_color, color_repr, kstr_num_colors;
    pose proof (INT_MAX_min P); lia.
Qed.

(** A valid call on a heap that serves it returns. *)
Lemma call_returns (m : heap) (o : op) (this : kstr) :
  rep_inv P this -> unlimited m -> valid_op o ->
  (if resets o then 1 else used this) + Z.of_nat (length (appended P o))
    <= SIZE_MAX P ->
  exists this', call P m o this = Ok this'.
Proof.
  intros Hinv Hm Hvalid Hfit.
  pose proof (call_spec m o this Hinv) as Hs.
  pose proof (call_served m o this Hinv Hm Hvalid Hfit) as Ha.
  destruct (call P m o this); [by eexists|done| |done].
  destruct Hs. by apply valid_op_typed.
Qed.

(** ** Runs and reachable strings *)

Lemma run_spec (calls : list (heap * op)) (this this' : kstr) :
  rep_inv P this -> run P calls this = Ok this' ->
  rep_inv P this' /\ width this' = spec_width P (width this) calls.
Proof.
  revert this. induction calls as [|[m o] calls IH]; intros this Hinv; simpl.
  - by intros [= <-].
  - pose proof (call_spec m o this Hinv) as Hs.
    destruct (call P m o this) as [mid| | |]; simpl; try done.
    destruct Hs as (Hi & _ & _ & Hw & _). intros Hrun.
    apply IH in Hrun as [? ->]; [|done]. by rewrite Hw.
Qed.

Lemma kstr_new_inv (m : heap) (text : option (list byte)) (this : kstr) :
  kstr_new P m text = Ok this -> rep_inv P this.
Proof.
  intros Hnew. pose proof (kstr_new_spec m text) as Hs.
  rewrite Hnew in Hs. apply Hs.
Qed.

Lemma kstr_basename_inv (m : heap) (this this' : kstr) (b : list byte) :
  rep_inv P this -> kstr_basename P m this = Ok (b, this') -> rep_inv P this'.
Proof.
  intros Hinv Hbase. pose proof (kstr_basename_spec m this) as Hs.
  rewrite Hbase in Hs. destruct Hs as (Hd & Hu & Hw & Hdata & _).
  destruct Hinv. split; rewrite ?Hd, ?Hu, ?Hw, ?Hdata; done.
Qed.

Lemma reachable_inv (this : kstr) : reachable P this -> rep_inv P this.
Proof.
  induction 1 as [m text this Hnew|m this this' _ IH Hcopy
                  |m o this this' _ IH Hcall|m this b this' _ IH Hbase].
  - by apply (kstr_new_inv m text).
  - pose proof (kstr_copy_spec m this IH) as Hs. rewrite Hcopy in Hs. apply Hs.
  - pose proof (call_spec m o this IH) as Hs. rewrite Hcall in Hs. apply Hs.
  - by apply (kstr_basename_inv m this this' b).
Qed.

(** The cache, when it holds a value, holds the basename of the value the
    string has now. *)
Lemma reachable_cache (this : kstr) (b : list byte) :
  reachable P this -> basename this = Some b ->
  b = c_str (libc_basename P (kstr_get this)).
Proof.
  intros Hr. revert b.
  induction Hr as [m text this Hnew|m this this' Hr IH Hcopy
                   |m o this this' Hr IH Hcall|m this b' this' _ IH Hbase];
    intros b Hb.
  - pose proof (kstr_new_spec m text) as Hs. rewrite Hnew in Hs.
    destruct Hs as (_ & _ & _ & _ & Hn). congruence.
  - apply reachable_inv in Hr.
    pose proof (kstr_copy_spec m this Hr) as Hs. rewrite Hcopy in Hs.
    destruct Hs as (_ & _ & _ & _ & _ & Hn). congruence.
  - apply reachable_inv in Hr.
    pose proof (call_spec m o this Hr) as Hs. rewrite Hcall in Hs.
    destruct Hs as (_ & _ & _ & _ & _ & _ & [Hn|[-> _]]); [congruence|auto].
  - pose proof (kstr_basename_spec m this) as Hs. rewrite Hbase in Hs.
    destruct Hs as (_ & _ & _ & Hdata & Hb' & [[Hold ->]|[_ ->]]); [auto|].
    unfold kstr_get in *. rewrite Hdata. congruence.
Qed.

(** ** Reading the value *)

Lemma kstr_get_content (this : kstr) :
  rep_inv P this -> nul_free (content this) -> kstr_get this = content this.
Proof.
  intros Hinv Hnf. unfold kstr_get. rewrite (rep_inv_split this Hinv).
  by apply c_str_stops.
Qed.

Lemma text_value_nul_free (text : option (list byte)) :
  nul_free (text_value text).
Proof. destruct text; [apply c_str_nul_free|constructor]. Qed.

Lemma kstr_new_get (m : heap) (text : option (list byte)) (this : kstr) :
  kstr_new P m text = Ok this -> kstr_get this = text_value text.
Proof.
  intros Hnew. pose proof (kstr_new_spec m text) as Hs. rewrite Hnew in Hs.
  destruct Hs as (Hinv & _ & _ & Hc & _).
  rewrite kstr_get_content, Hc; [done|done|].
  rewrite Hc. apply text_value_nul_free.
Qed.

Lemma kstr_new_returns (m : heap) (text : option (list byte)) :
  unlimited m -> 1 + text_length text <= SIZE_MAX P ->
  exists this, kstr_new P m text = Ok this.
Proof.
  intros Hm Hfit. pose proof (kstr_new_spec m text) as Hs.
  destruct (kstr_new P m text) as [this| | |] eqn:Hnew; [by eexists| |done|done].
  exfalso. revert Hnew. unfold kstr_new, malloc. rewrite !Hm.
  pose proof SIZE_MAX_large. rewrite store_ok
    by (rewrite length_fresh; unfold init_size; lia).
  simpl. apply kstr_add_text_served; [|done|done].
  split; simpl; unfold init_size; try lia; done.
Qed.

Lemma kstr_size_get (this : kstr) :
  rep_inv P this -> nul_free (content this) ->
  kstr_size this = Z.of_nat (length (kstr_get this)) + 1.
Proof.
  intros Hinv Hnf. rewrite kstr_get_content by done.
  rewrite content_length by done. unfold kstr_size. lia.
Qed.

(** ** A rendering that fails *)

Lemma vsnprintf_failed (fmt : option (list byte)) (args : list parg) :
  vsnprintf_length P fmt args < 0 <-> rendering P fmt args = None.
Proof.
  unfold vsnprintf_length. destruct (rendering P fmt args); split; try done; lia.
Qed.

Lemma kstr_add_vfmt_failed (m : heap) (this : kstr) (fmt : option (list byte))
    (args : list parg) :
  rep_inv P this -> vsnprintf_length P fmt args < 0 ->
  kstr_add_vfmt P m this fmt args
  = Ok {| data_size := data_size this; used := used this;
          width := width this; basename := None; data := data this |}.
Proof.
  intros [Hu1 Hterm Hw Hcap Hmin Hmax Hlen] Hneg.
  pose proof SIZE_MAX_large as HM. unfold kstr_add_vfmt.
  destruct (Z.ltb_spec (vsnprintf_length P fmt args) 0); [|lia].
  rewrite grow_until_exit
    by (unfold kstr_available; rewrite wrap_small; lia).
  simpl. unfold vsnprintf_store.
  apply vsnprintf_failed in Hneg. rewrite Hneg. simpl.
  rewrite (wrap_small (0 + 1)) by lia. simpl.
  rewrite memcpy_ok by (simpl; lia). simpl.
  rewrite !Z.add_0_r, !wrap_small by lia.
  replace (Z.to_nat (used this - 1) + 1)%nat
    with (S (Z.to_nat (used this - 1))) by lia.
  by rewrite take_drop_middle.
Qed.

End Proofs.

(** * The claims *)

(** [returned e] gives the value the call [e] returns, found by running it. *)
Ltac returned e :=
  let r := eval vm_compute in e in
  lazymatch r with Ok ?v => exists v end.

Ltac run_it := vm_compute; reflexivity.

(** In a goal [A /\ B /\ C] whose [A] and [B] say what two calls return,
    [ran H1 H2] runs the calls and leaves [C]. *)
Ltac ran H1 H2 :=
  lazymatch goal with
  | |- ?A /\ ?B /\ _ =>
    assert (H1 : A) by run_it; assert (H2 : B) by run_it;
    split; [exact H1|]; split; [exact H2|]
  end.

(** ** C1 *)

(** C1.  Every public operation keeps the representation invariant of a
    live string: [kstr_new] returns a string that has it, and [kstr_copy],
    [kstr_set_text], [kstr_set_fmt], [kstr_add_text], [kstr_add_fmt],
    [kstr_add_bold], [kstr_add_fg], [kstr_add_bg] and [kstr_add_reset],
    called on a string that has it, return a string that has it.  The
    invariant: [used >= 1], the byte at index [used - 1] is nul,
    [width <= used - 1], [data_size >= used], [data_size >= 64] (and, as C
    has it by typing, the counters are [size_t] values and the buffer is a
    block of [data_size] bytes).  A call on such a string either returns or
    ends in [abort()]: it makes no access outside the buffer and its loop
    ends. *)
Theorem rep_inv_preserved (P : platform) (m : heap) :
  (forall text this, kstr_new P m text = Ok this -> rep_inv P this)
  /\ (forall this this',
        rep_inv P this -> kstr_copy P m this = Ok this' -> rep_inv P this')
  /\ (forall o this this',
        rep_inv P this -> call P m o this = Ok this' -> rep_inv P this')
  /\ (forall o this,
        rep_inv P this -> op_typed P o ->
        call P m o this = Aborted \/ exists this', call P m o this = Ok this').
Proof.
  split_and!.
  - intros text this Hnew. pose proof (kstr_new_spec P m text) as Hs.
    rewrite Hnew in Hs. apply Hs.
  - intros this this' Hinv Hcopy. pose proof (kstr_copy_spec P m this Hinv) as Hs.
    rewrite Hcopy in Hs. apply Hs.
  - intros o this this' Hinv Hcall. pose proof (call_spec P m o this Hinv) as Hs.
    rewrite Hcall in Hs. apply Hs.
  - intros o this Hinv Ht. pose proof (call_spec P m o this Hinv) as Hs.
    destruct (call P m o this); [right; by eexists|by left|done|done].
Qed.

Lemma rep_inv_preserved_witness :
  exists this this',
    kstr_new lp64 roomy (Some (bytes "kstr")) = Ok this
    /\ call lp64 roomy (add_fmt (Some (bytes "-%d")) [arg_int 3]) this = Ok this'
    /\ rep_inv lp64 this'.
Proof.
  destruct (rep_inv_preserved lp64 roomy) as (Hnew & _ & Hcall & _).
  returned (kstr_new lp64 roomy (Some (bytes "kstr"))).
  returned (do this <- kstr_new lp64 roomy (Some (bytes "kstr"));
            call lp64 roomy (add_fmt (Some (bytes "-%d")) [arg_int 3]) this).
  ran H1 H2. exact (Hcall _ _ _ (Hnew _ _ H1) H2).
Defined.

(** ** C2 *)

(** C2.  After any run of calls on a new string the width is the sum the
    specification gives: the byte lengths of the plain and formatted text
    appended, counted from the last set (or from the initial text), styling
    codes counting nothing.  A styling call ([kstr_add_bold], [kstr_add_fg],
    [kstr_add_bg], [kstr_add_reset]) leaves the width as it was, and a
    string that only ever received styling codes has width 0. *)
Theorem width_accounting (P : platform) :
  (forall m text calls this this',
      kstr_new P m text = Ok this -> run P calls this = Ok this' ->
      kstr_width this' = spec_width P (text_length text) calls)
  /\ (forall m o this this',
        rep_inv P this -> is_styling o = true ->
        call P m o this = Ok this' -> kstr_width this' = kstr_width this)
  /\ (forall m calls this this',
        kstr_new P m None = Ok this ->
        Forall (fun c => is_styling (snd c) = true) calls ->
        run P calls this = Ok this' -> kstr_width this' = 0).
Proof.
  assert (Hstyle : forall calls w,
             Forall (fun c => is_styling (snd c) = true) calls ->
             spec_width P w calls = w).
  { induction calls as [|[m o] calls IH]; intros w Hall; [done|].
    apply Forall_cons in Hall as [Ho Hall]. unfold spec_width in *. simpl.
    rewrite IH by done. destruct o; try done; unfold visible_width; simpl; lia. }
  split_and!.
  - intros m text calls this this' Hnew Hrun. unfold kstr_width.
    pose proof (kstr_new_spec P m text) as Hs. rewrite Hnew in Hs.
    destruct Hs as (Hinv & _ & Hw & _).
    apply run_spec in Hrun as [_ ->]; [|done]. by rewrite Hw.
  - intros m o this this' Hinv Ho Hcall.
    pose proof (call_spec P m o this Hinv) as Hs. rewrite Hcall in Hs.
    destruct Hs as (_ & _ & _ & Hw & _). unfold kstr_width. rewrite Hw.
    destruct o; try done; unfold visible_width; simpl; lia.
  - intros m calls this this' Hnew Hall Hrun. unfold kstr_width.
    pose proof (kstr_new_spec P m None) as Hs. rewrite Hnew in Hs.
    destruct Hs as (Hinv & _ & Hw & _).
    apply run_spec in Hrun as [_ ->]; [|done]. rewrite Hw. by apply Hstyle.
Qed.

Lemma width_accounting_witness :
  exists this this',
    kstr_new lp64 roomy (Some (bytes "ab")) = Ok this
    /\ run lp64
         [ (roomy, add_fg 6); (roomy, add_text (Some (bytes "cde")));
           (roomy, add_fmt (Some (bytes "%s=%d")) [arg_str (bytes "n"); arg_int 42]);
           (roomy, add_reset) ] this = Ok this'
    /\ kstr_width this' = 2 + 3 + 4.
Proof.
  destruct (width_accounting lp64) as (Hrun & _ & _).
  returned (kstr_new lp64 roomy (Some (bytes "ab"))).
  returned (do this <- kstr_new lp64 roomy (Some (bytes "ab"));
            run lp64
              [ (roomy, add_fg 6); (roomy, add_text (Some (bytes "cde")));
                (roomy, add_fmt (Some (bytes "%s=%d"))
                          [arg_str (bytes "n"); arg_int 42]);
                (roomy, add_reset) ] this).
  ran H1 H2. exact (Hrun _ _ _ _ _ H1 H2).
Defined.

(** ** C3 *)

(** C3, as stated, fails for a text that holds a nul byte: [kstr_new] takes
    a C string, and reads it up to its first nul.  Of the three bytes
    [a], nul, [b] it keeps [a]; of the 256 byte values in ascending order,
    which start with nul, it keeps nothing. *)
Lemma get_new_embedded_nul :
  (exists this,
      kstr_new lp64 roomy (Some (bytes "a" ++ nul :: bytes "b")) = Ok this
      /\ kstr_get this = bytes "a"
      /\ kstr_get this <> bytes "a" ++ nul :: bytes "b")
  /\ (exists this,
        kstr_new lp64 roomy (Some (nul :: text_bytes)) = Ok this
        /\ length (nul :: text_bytes) = 256%nat
        /\ kstr_get this = []
        /\ kstr_get this <> nul :: text_bytes).
Proof.
  split.
  - returned (kstr_new lp64 roomy (Some (bytes "a" ++ nul :: bytes "b"))).
    split_and!; [run_it|run_it|by vm_compute].
  - returned (kstr_new lp64 roomy (Some (nul :: text_bytes))).
    split_and!; [run_it|run_it|run_it|by vm_compute].
Qed.

(** C3, amended.  For every initial text [T] that holds no nul byte,
    [kstr_get (kstr_new T)] is [T], and for a null [T] it is the empty
    string; in general it is the C string [T] points to, the bytes of [T]
    before its first nul.  [kstr_new] does return on a heap that serves its
    requests, for every text that fits a [size_t] with its terminator. *)
Theorem get_new (P : platform) (m : heap) (text : option (list byte)) :
  (forall this,
      kstr_new P m text = Ok this ->
      kstr_get this = text_value text
      /\ (forall T, text = Some T -> nul_free T -> kstr_get this = T)
      /\ (text = None -> kstr_get this = []))
  /\ (unlimited m -> 1 + text_length text <= SIZE_MAX P ->
      exists this, kstr_new P m text = Ok this).
Proof.
  split.
  - intros this Hnew. rewrite (kstr_new_get P m text this Hnew).
    split_and!; [done| |by intros ->].
    intros T -> HT. by apply c_str_id.
  - apply kstr_new_returns.
Qed.

Lemma get_new_witness :
  exists this,
    kstr_new lp64 roomy (Some (bytes "kstr")) = Ok this
    /\ kstr_get this = bytes "kstr".
Proof.
  destruct (get_new lp64 roomy (Some (bytes "kstr"))) as (Hget & Hret).
  destruct Hret as [this Hnew]; [done|by vm_compute|].
  exists this. split; [done|].
  destruct (Hget this Hnew) as (_ & Hfree & _).
  apply (Hfree _ eq_refl). by repeat constructor.
Defined.

(** The texts of the test program, each read back as it went in. *)
Example get_new_samples :
  Forall (fun T => exists this,
            kstr_new lp64 roomy (Some T) = Ok this /\ kstr_get this = T)
    [ []; text_bytes; text_long; text_utf8 ]
  /\ exists this, kstr_new lp64 roomy None = Ok this /\ kstr_get this = [].
Proof.
  split; [repeat apply Forall_cons_2; [..|apply Forall_nil_2]|].
  - returned (kstr_new lp64 roomy (Some [])). split; run_it.
  - returned (kstr_new lp64 roomy (Some text_bytes)). split; run_it.
  - returned (kstr_new lp64 roomy (Some text_long)). split; run_it.
  - returned (kstr_new lp64 roomy (Some text_utf8)). split; run_it.
  - returned (kstr_new lp64 roomy None). split; run_it.
Qed.

(** ** C4 *)

(** Where the value holds no nul byte, the size is the length of the C
    string at the buffer and one for the terminator; the calls that append
    what a C string holds ([kstr_add_text], [kstr_set_text] and the styling
    calls) keep the value free of nul bytes. *)
Lemma nul_free_kept (P : platform) (m : heap) (o : op) (this this' : kstr) :
  rep_inv P this -> nul_free (content this) -> nul_free (appended P o) ->
  call P m o this = Ok this' ->
  nul_free (content this')
  /\ kstr_size this' = Z.of_nat (length (kstr_get this')) + 1.
Proof.
  intros Hinv Hnf Ho Hcall. pose proof (call_spec P m o this Hinv) as Hs.
  rewrite Hcall in Hs. destruct Hs as (Hinv' & _ & _ & _ & Hc & _).
  assert (nul_free (content this')).
  { rewrite Hc. apply nul_free_app; [|done]. destruct (resets o); [constructor|done]. }
  split; [done|]. by apply (kstr_size_get P).
Qed.

Lemma size_get_of_text (P : platform) (m : heap) (text : option (list byte))
    (calls : list (heap * op)) (this this' : kstr) :
  kstr_new P m text = Ok this ->
  Forall (fun c => nul_free (appended P (snd c))) calls ->
  run P calls this = Ok this' ->
  kstr_size this' = Z.of_nat (length (kstr_get this')) + 1.
Proof.
  intros Hnew Hall Hrun.
  pose proof (kstr_new_spec P m text) as Hs. rewrite Hnew in Hs.
  destruct Hs as (Hinv & _ & _ & Hc & _).
  assert (Hnf : nul_free (content this))
    by (rewrite Hc; apply text_value_nul_free).
  clear Hnew Hc. revert this Hinv Hnf Hrun.
  induction Hall as [|[m' o] calls Ho _ IH]; intros this Hinv Hnf; simpl.
  - intros [= <-]. by apply (kstr_size_get P).
  - pose proof (call_spec P m' o this Hinv) as Hs.
    destruct (call P m' o this) as [mid| | |] eqn:Hcall; simpl; try done.
    destruct Hs as (Hinv' & _). apply IH; [done|].
    by apply (nul_free_kept P m' o this mid).
Qed.

(** C4.  [kstr_size] is not always the length of the C string at
    [kstr_get] plus one: [kstr_add_fmt (str, "%c", 0)] on a new empty
    string renders one nul byte, after which the size is 2 while the C
    string at the buffer is empty. *)
Theorem size_get_embedded_nul :
  exists this0 this,
    kstr_new lp64 roomy None = Ok this0
    /\ kstr_add_fmt lp64 roomy this0 (Some (bytes "%c")) [arg_int 0] = Ok this
    /\ reachable lp64 this
    /\ kstr_size this = 2
    /\ kstr_get this = []
    /\ kstr_size this <> Z.of_nat (length (kstr_get this)) + 1.
Proof.
  returned (kstr_new lp64 roomy None).
  returned (do this0 <- kstr_new lp64 roomy None;
            kstr_add_fmt lp64 roomy this0 (Some (bytes "%c")) [arg_int 0]).
  ran H1 H2. split; [|by vm_compute].
  exact (reach_call lp64 roomy (add_fmt (Some (bytes "%c")) [arg_int 0]) _ _
           (reach_new lp64 roomy None _ H1) H2).
Qed.

(** ** C5 *)

(** C5.  [kstr_basename] returns the basename of the value the string holds:
    on the POSIX platform ["file"] for ["/one/two/file"], ["."] for the
    empty string, ["/"] for ["/"] and ["."] for ["."]; in general, on every
    string a program can reach, what the platform's [basename()] gives for
    the C string at the buffer.  The result stays in the cache: a second
    call returns it as it is, whatever [basename()] would compute and even
    when no memory is left.  After [kstr_set_text] the next call gives the
    basename of the new value.  On a heap that serves its requests the call
    returns. *)
Theorem basename_cached (P : platform) :
  Forall (fun sample => exists this this',
            kstr_new lp64 roomy (Some (bytes (fst sample))) = Ok this
            /\ kstr_basename lp64 roomy this = Ok (bytes (snd sample), this'))
    [ ("/one/two/file", "file"); ("", "."); ("/", "/"); (".", ".") ]%string
  /\ (forall m this b this',
        reachable P this -> kstr_basename P m this = Ok (b, this') ->
        b = c_str (libc_basename P (kstr_get this))
        /\ kstr_get this' = kstr_get this /\ basename this' = Some b)
  /\ (forall m this b this',
        kstr_basename P m this = Ok (b, this') ->
        forall P' m', kstr_basename P' m' this' = Ok (b, this'))
  /\ (forall m m' this text this1 b this2,
        rep_inv P this -> kstr_set_text P m this text = Ok this1 ->
        kstr_basename P m' this1 = Ok (b, this2) ->
        kstr_get this1 = text_value text
        /\ b = c_str (libc_basename P (text_value text)))
  /\ (forall m this, unlimited m ->
        exists b this', kstr_basename P m this = Ok (b, this')).
Proof.
  split_and!.
  - repeat apply Forall_cons_2; [..|apply Forall_nil_2]; simpl.
    + returned (kstr_new lp64 roomy (Some (bytes "/one/two/file"))).
      eexists. split; run_it.
    + returned (kstr_new lp64 roomy (Some (bytes ""))).
      eexists. split; run_it.
    + returned (kstr_new lp64 roomy (Some (bytes "/"))).
      eexists. split; run_it.
    + returned (kstr_new lp64 roomy (Some (bytes "."))).
      eexists. split; run_it.
  - intros m this b this' Hr Hbase.
    pose proof (kstr_basename_spec P m this) as Hs. rewrite Hbase in Hs.
    destruct Hs as (_ & _ & _ & Hdata & Hb & Hfrom).
    split_and!; [|unfold kstr_get; by rewrite Hdata|done].
    destruct Hfrom as [[Hold _]|[_ ->]]; [|done].
    by apply reachable_cache.
  - intros m this b this' Hbase P' m'.
    pose proof (kstr_basename_spec P m this) as Hs. rewrite Hbase in Hs.
    destruct Hs as (_ & _ & _ & _ & Hb & _).
    unfold kstr_basename. by rewrite Hb.
  - intros m m' this text this1 b this2 Hinv Hset Hbase.
    pose proof (call_spec P m (set_text text) this Hinv) as Hs.
    simpl in Hs. rewrite Hset in Hs.
    destruct Hs as (Hinv1 & _ & _ & _ & Hc & _ & Hnone).
    assert (Hget : kstr_get this1 = text_value text).
    { rewrite (kstr_get_content P), Hc; [done|done|].
      rewrite Hc. apply text_value_nul_free. }
    split; [done|].
    pose proof (kstr_basename_spec P m' this1) as Hs. rewrite Hbase in Hs.
    destruct Hs as (_ & _ & _ & _ & _ & [[Hold _]|[_ ->]]); [|by rewrite Hget].
    destruct Hnone as [Hn|[_ (? & ? & _)]]; congruence.
  - intros m this Hm. unfold kstr_basename, kstr_get_copy, strdup.
    destruct (basename this); [by eexists _, _|].
    rewrite !Hm. simpl. rewrite Hm. by eexists _, _.
Qed.

Lemma basename_cached_witness :
  exists this this1 this2,
    (do this0 <- kstr_new lp64 roomy (Some (bytes "/old/name"));
     do r <- kstr_basename lp64 roomy this0; Ok (snd r)) = Ok this
    /\ kstr_set_text lp64 roomy this (Some (bytes "/new/path/")) = Ok this1
    /\ basename this = Some (bytes "name")
    /\ kstr_basename lp64 roomy this1 = Ok (bytes "path", this2)
    /\ kstr_basename ip16 exhausted this2 = Ok (bytes "path", this2).
Proof.
  returned (do this0 <- kstr_new lp64 roomy (Some (bytes "/old/name"));
            do r <- kstr_basename lp64 roomy this0; Ok (snd r)).
  returned (do this0 <- kstr_new lp64 roomy (Some (bytes "/old/name"));
            do r <- kstr_basename lp64 roomy this0;
            kstr_set_text lp64 roomy (snd r) (Some (bytes "/new/path/"))).
  returned (do this0 <- kstr_new lp64 roomy (Some (bytes "/old/name"));
            do r <- kstr_basename lp64 roomy this0;
            do this1 <- kstr_set_text lp64 roomy (snd r)
                          (Some (bytes "/new/path/"));
            do r1 <- kstr_basename lp64 roomy this1; Ok (snd r1)).
  ran H1 H2. split; [run_it|].
  destruct (basename_cached lp64) as (_ & _ & Hmemo & Hset & _).
  lazymatch type of H2 with
  | kstr_set_text _ _ ?this ?text = Ok ?this1 =>
    assert (Hinv : rep_inv lp64 this) by (split; by vm_compute);
    lazymatch goal with
    | |- kstr_basename _ _ _ = Ok (?b, ?this2) /\ _ =>
      assert (H3 : kstr_basename lp64 roomy this1 = Ok (b, this2)) by run_it;
      pose proof (Hset roomy roomy this text this1 b this2 Hinv H2 H3) as [_ Hb];
      split; [exact H3|exact (Hmemo roomy this1 b this2 H3 ip16 exhausted)]
    end
  end.
Defined.

(** ** C6 *)

(** C6.  Every call that changes a string leaves the cache of the basename
    empty; the only calls that return without emptying it are those that
    leave the whole object as it was, [kstr_add_text] with a null or an
    empty text.  These leave the object, and so its value, its width and
    its cached basename, unchanged. *)
Theorem cache_invalidated (P : platform) (m : heap) (o : op) (this this' : kstr) :
  rep_inv P this -> call P m o this = Ok this' ->
  (basename this' = None
   \/ this' = this /\ exists text, o = add_text text /\ text_length text = 0)
  /\ kstr_add_text P m this None = Ok this
  /\ kstr_add_text P m this (Some []) = Ok this
  /\ (forall text, text_length text = 0 -> kstr_add_text P m this text = Ok this).
Proof.
  intros Hinv Hcall. pose proof (call_spec P m o this Hinv) as Hs.
  rewrite Hcall in Hs. destruct Hs as (_ & _ & _ & _ & _ & _ & Hb).
  split_and!; [done|done|done|]. apply kstr_add_text_noop.
Qed.

Lemma cache_invalidated_witness :
  exists this this',
    (do this0 <- kstr_new lp64 roomy (Some (bytes "/one/two/file"));
     do r <- kstr_basename lp64 roomy this0; Ok (snd r)) = Ok this
    /\ call lp64 roomy (add_bold true) this = Ok this'
    /\ basename this = Some (bytes "file")
    /\ basename this' = None
    /\ kstr_add_text lp64 roomy this (Some []) = Ok this.
Proof.
  returned (do this0 <- kstr_new lp64 roomy (Some (bytes "/one/two/file"));
            do r <- kstr_basename lp64 roomy this0; Ok (snd r)).
  returned (do this0 <- kstr_new lp64 roomy (Some (bytes "/one/two/file"));
            do r <- kstr_basename lp64 roomy this0;
            call lp64 roomy (add_bold true) (snd r)).
  ran H1 H2. split; [run_it|].
  lazymatch type of H2 with
  | call _ _ ?o ?this = Ok ?this' =>
    assert (Hinv : rep_inv lp64 this) by (split; by vm_compute);
    destruct (cache_invalidated lp64 roomy o this this' Hinv H2)
      as ([Hnone|[Heq _]] & _ & Hnoop & _)
  end.
  - split; [exact Hnone|exact Hnoop].
  - discriminate Heq.
Defined.

(** ** C7 *)

(** C7, as stated, fails.  [kstr_grow] does not treat a double that
    overflows as fatal: on a platform with a 16-bit [size_t], a buffer of
    32768 bytes, whose double is not representable, grows to 65535 bytes
    when the heap has them. *)
Lemma grow_not_as_specified :
  rep_inv ip16 half_full
  /\ SIZE_MAX ip16 < data_size half_full * 2
  /\ (exists this', kstr_grow ip16 roomy half_full = Ok this'
        /\ data_size this' = 65535)
  /\ ~ grow_as_specified ip16 roomy half_full.
Proof.
  assert (Hinv : rep_inv ip16 half_full) by (split; by vm_compute).
  split; [done|]. split; [by vm_compute|].
  pose proof (kstr_grow_cases ip16 roomy half_full (rep_inv_block _ _ Hinv)) as Hs.
  destruct (kstr_grow ip16 roomy half_full) as [this'| | |] eqn:Hgrow;
    [|destruct Hs as [Hs|Hs]; by vm_compute in Hs|done|done].
  destruct Hs as (_ & _ & Hsz & _). split.
  - exists this'. split; [done|]. rewrite Hsz. by vm_compute.
  - intros [Habort _]. rewrite Habort in Hgrow; [done|]. right. by vm_compute.
Qed.

(** The same on the 64-bit platform: a buffer of [2^63] bytes grows to
    [2^64 - 1] bytes when the heap has them. *)
Lemma grow_clamps_lp64 (m : heap) (this : kstr) :
  rep_inv lp64 this -> data_size this = 2 ^ 63 ->
  can_alloc m (SIZE_MAX lp64) = true ->
  exists this', kstr_grow lp64 m this = Ok this'
    /\ data_size this' = SIZE_MAX lp64.
Proof.
  intros Hinv Hsize Hm.
  pose proof (kstr_grow_cases lp64 m this (rep_inv_block _ _ Hinv)) as Hs.
  assert (Hnext : next_size lp64 (data_size this) = SIZE_MAX lp64)
    by (by rewrite Hsize).
  rewrite Hnext in Hs.
  destruct (kstr_grow lp64 m this) as [this'| | |]; try done.
  - exists this'. split; [done|]. apply Hs.
  - destruct Hs as [Hs|Hs]; [by rewrite Hsize in Hs|congruence].
Qed.

(** C7, amended.  The grow step asks for twice the capacity when that is a
    [size_t], and for [SIZE_MAX] when it is not; the bytes of the buffer,
    and so those in use, stay as they are, as do [used], [width] and the
    cache, and the invariant holds again.  It ends in [abort()] when the
    capacity is [SIZE_MAX] already or when the heap refuses the request,
    and in no other case. *)
Theorem grow_step (P : platform) (m : heap) (this : kstr) :
  rep_inv P this ->
  (data_size this = SIZE_MAX P -> kstr_grow P m this = Aborted)
  /\ (can_alloc m (next_size P (data_size this)) = false ->
      kstr_grow P m this = Aborted)
  /\ (data_size this < SIZE_MAX P ->
      can_alloc m (next_size P (data_size this)) = true ->
      exists this', kstr_grow P m this = Ok this'
        /\ (data_size this * 2 <= SIZE_MAX P ->
            data_size this' = data_size this * 2)
        /\ (SIZE_MAX P < data_size this * 2 -> data_size this' = SIZE_MAX P)
        /\ (exists junk, data this' = data this ++ junk)
        /\ take (Z.to_nat (used this)) (data this')
           = take (Z.to_nat (used this)) (data this)
        /\ used this' = used this /\ width this' = width this
        /\ basename this' = basename this
        /\ rep_inv P this').
Proof.
  intros Hinv.
  pose proof (kstr_grow_cases P m this (rep_inv_block _ _ Hinv)) as Hs.
  destruct Hinv as [Hu1 Hterm Hw Hcap Hmin Hmax Hlen].
  split_and!.
  - intros Hfull. unfold kstr_grow. by rewrite Hfull, Z.eqb_refl.
  - intros Hno. unfold kstr_grow, realloc.
    destruct (data_size this =? SIZE_MAX P); [done|].
    change grow_factor with 2.
    replace (if SIZE_MAX P / 2 <? data_size this then SIZE_MAX P
             else wrap P (data_size this * 2))
      with (next_size P (data_size this)); [by rewrite Hno|].
    unfold next_size. destruct (Z.ltb_spec (SIZE_MAX P / 2) (data_size this));
      [done|]. symmetry. apply wrap_small. Z.div_mod_to_equations. lia.
  - intros Hroom Hyes.
    destruct (kstr_grow P m this) as [this'| | |]; [|destruct Hs|done|done].
    + destruct Hs as (_ & _ & Hsz & _ & [Hlen' Hr'] & Hu & Hwd & Hb & _ & junk & Hd).
      exists this'. unfold next_size in Hsz.
      split_and!; try done.
      * intros Hfit. rewrite Hsz.
        destruct (Z.ltb_spec (SIZE_MAX P / 2) (data_size this)); [|done].
        Z.div_mod_to_equations. lia.
      * intros Hover. rewrite Hsz.
        destruct (Z.ltb_spec (SIZE_MAX P / 2) (data_size this)); [done|].
        Z.div_mod_to_equations. lia.
      * by exists junk.
      * rewrite Hd. apply take_app_le. lia.
      * assert (data_size this <= data_size this').
        { rewrite Hsz.
          destruct (Z.ltb_spec (SIZE_MAX P / 2) (data_size this)); lia. }
        split; rewrite ?Hu, ?Hwd; try lia.
        rewrite Hd, lookup_app_l by lia. done.
    + lia.
    + congruence.
Qed.

Lemma grow_step_witness :
  exists this',
    kstr_grow ip16 roomy half_full = Ok this'
    /\ data_size this' = 65535
    /\ rep_inv ip16 this'.
Proof.
  assert (Hinv : rep_inv ip16 half_full) by (split; by vm_compute).
  destruct (grow_step ip16 roomy half_full Hinv) as (_ & _ & Hgrow).
  destruct Hgrow as (this' & Hok & _ & Hmax & _ & _ & _ & _ & _ & Hinv');
    [by vm_compute|by vm_compute|].
  exists this'. split; [exact Hok|]. split; [|exact Hinv'].
  apply Hmax. by vm_compute.
Defined.

(** ** C8 *)

(** [kstr_add_vfmt] has no test of its format: a null one reaches
    [vsnprintf] as it is, and the dry run gives what the library answers.
    Where the library fails the call, the length is negative. *)
Lemma null_format_length (P : platform) (args : list parg) :
  null_format_fails P args -> vsnprintf_length P None args < 0.
Proof.
  unfold null_format_fails, vsnprintf_length, rendering. simpl.
  by intros ->.
Qed.

(** C8.  On a platform whose library fails a [printf] call with a null
    format, a null format string appends nothing and is no error:
    [kstr_add_fmt] returns the string with its value, size and width as
    they were, [kstr_set_fmt] returns it holding the empty value, on every
    heap.  The premise is about the library, not about [kstr.c], which
    passes the format on unchecked. *)
Theorem null_format (P : platform) (m : heap) (this : kstr) (args : list parg) :
  null_format_fails P args -> rep_inv P this ->
  (exists this', kstr_add_fmt P m this None args = Ok this'
     /\ kstr_get this' = kstr_get this
     /\ kstr_size this' = kstr_size this
     /\ kstr_width this' = kstr_width this)
  /\ (exists this', kstr_set_fmt P m this None args = Ok this'
       /\ kstr_get this' = []
       /\ kstr_size this' = 1
       /\ kstr_width this' = 0).
Proof.
  intros Hnull Hinv. apply null_format_length in Hnull. split.
  - unfold kstr_add_fmt. rewrite kstr_add_vfmt_failed by done.
    eexists. split; [done|]. done.
  - unfold kstr_set_fmt, kstr_set_vfmt.
    destruct (kstr_reset_spec P this Hinv)
      as (mid & Hreset & Hi & Hu & Hw & _ & Hc & _).
    rewrite Hreset. simpl. rewrite kstr_add_vfmt_failed by done.
    eexists. split; [done|]. unfold kstr_size, kstr_width. simpl.
    split; [|done].
    rewrite <- Hc. unfold kstr_get. rewrite (rep_inv_split P mid Hi), Hc. done.
Qed.

Lemma null_format_witness :
  null_format_fails lp64 []
  /\ exists this this',
      kstr_new lp64 roomy (Some (bytes "kept")) = Ok this
      /\ kstr_add_fmt lp64 exhausted this None [] = Ok this'
      /\ kstr_get this' = bytes "kept".
Proof.
  assert (Hnull : null_format_fails lp64 []) by reflexivity.
  split; [exact Hnull|].
  returned (kstr_new lp64 roomy (Some (bytes "kept"))).
  lazymatch goal with
  | |- exists this', _ /\ kstr_add_fmt _ _ ?this _ _ = _ /\ _ =>
    assert (Hinv : rep_inv lp64 this) by (split; by vm_compute);
    destruct (null_format lp64 exhausted this [] Hnull Hinv)
      as [(this' & Hadd & Hget & _) _]
  end.
  exists this'. split; [run_it|]. split; [exact Hadd|].
  rewrite Hget. run_it.
Defined.

(** ** C9 *)

(** The values of the enumeration are the nine valid colors. *)
Lemma color_value_valid (color : Z) :
  valid_color color <-> exists c, color = color_value c.
Proof.
  unfold valid_color, kstr_num_colors. split.
  - intros Hc.
    assert (color = 0 \/ color = 1 \/ color = 2 \/ color = 3 \/ color = 4
            \/ color = 5 \/ color = 6 \/ color = 7 \/ color = 8) as Hd by lia.
    destruct Hd as [->|[->|[->|[->|[->|[->|[->|[->| ->]]]]]]]];
      [by exists kstr_color_default|by exists kstr_color_black
      |by exists kstr_color_blue|by exists kstr_color_cyan
      |by exists kstr_color_green|by exists kstr_color_magenta
      |by exists kstr_color_red|by exists kstr_color_white
      |by exists kstr_color_yellow].
  - intros [c ->]. destruct c; simpl; lia.
Qed.

(** C9.  For each color of the enumeration [kstr_add_fg] appends the ANSI
    sequence that selects it as foreground, [ESC [ n m] with [n] the ANSI
    number of the color, and [kstr_add_bg] the one that selects it as
    background; [kstr_add_bold] appends [ESC [ 1 m] to set and
    [ESC [ 2 2 m] to clear, [kstr_add_reset] appends [ESC [ 0 m].  The
    bytes go behind the value, they count in the size and not in the width.
    The eighteen color sequences are distinct.  A color value outside the
    enumeration ends the call in [abort()].  With a color of the
    enumeration and a heap that serves its requests the calls return. *)
Theorem styling_codes (P : platform) (m : heap) (this : kstr) :
  rep_inv P this ->
  (forall c this',
      kstr_add_fg P m this (color_value c) = Ok this' ->
      content this' = content this ++ sgr (ansi_foreground c)
      /\ kstr_size this' = kstr_size this + 5
      /\ kstr_width this' = kstr_width this)
  /\ (forall c this',
        kstr_add_bg P m this (color_value c) = Ok this' ->
        content this' = content this ++ sgr (ansi_background c)
        /\ kstr_size this' = kstr_size this + 5
        /\ kstr_width this' = kstr_width this)
  /\ (forall bold this',
        kstr_add_bold P m this bold = Ok this' ->
        content this' = content this
          ++ (if bold then ESC :: bytes "[1m" else ESC :: bytes "[22m")
        /\ kstr_width this' = kstr_width this)
  /\ (forall this',
        kstr_add_reset P m this = Ok this' ->
        content this' = content this ++ ESC :: bytes "[0m"
        /\ kstr_width this' = kstr_width this)
  /\ NoDup (fg_codes ++ bg_codes)
  /\ (forall color,
        color_repr P color -> ~ valid_color color ->
        kstr_add_fg P m this color = Aborted
        /\ kstr_add_bg P m this color = Aborted)
  /\ (unlimited m -> used this + 5 <= SIZE_MAX P ->
      forall c bold,
        (exists this', kstr_add_fg P m this (color_value c) = Ok this')
        /\ (exists this', kstr_add_bg P m this (color_value c) = Ok this')
        /\ (exists this', kstr_add_bold P m this bold = Ok this')
        /\ (exists this', kstr_add_reset P m this = Ok this')).
Proof.
  intros Hinv. split_and!.
  - intros c this' Hcall.
    pose proof (call_spec P m (add_fg (color_value c)) this Hinv) as Hs.
    simpl in Hs. rewrite Hcall in Hs.
    destruct Hs as (_ & _ & Hu & Hw & Hc & _).
    unfold kstr_size, kstr_width. rewrite Hu, Hw, Hc.
    unfold visible_width. by destruct c; simpl; split_and!; try lia.
  - intros c this' Hcall.
    pose proof (call_spec P m (add_bg (color_value c)) this Hinv) as Hs.
    simpl in Hs. rewrite Hcall in Hs.
    destruct Hs as (_ & _ & Hu & Hw & Hc & _).
    unfold kstr_size, kstr_width. rewrite Hu, Hw, Hc.
    unfold visible_width. by destruct c; simpl; split_and!; try lia.
  - intros bold this' Hcall.
    pose proof (call_spec P m (add_bold bold) this Hinv) as Hs.
    simpl in Hs. rewrite Hcall in Hs.
    destruct Hs as (_ & _ & _ & Hw & Hc & _).
    unfold kstr_width. rewrite Hw, Hc.
    unfold visible_width. split; [done|simpl; lia].
  - intros this' Hcall.
    pose proof (call_spec P m add_reset this Hinv) as Hs.
    simpl in Hs. rewrite Hcall in Hs.
    destruct Hs as (_ & _ & _ & Hw & Hc & _).
    unfold kstr_width. rewrite Hw, Hc.
    unfold visible_width. split; [done|simpl; lia].
  - apply NoDup_ListNoDup. vm_compute.
    repeat (constructor; [by (intros Hin; repeat (destruct Hin as [Hin|Hin]; [discriminate Hin|]))|]).
    constructor.
  - intros color Hr Hn. unfold kstr_add_fg, kstr_add_bg.
    by rewrite color_check_invalid.
  - intros Hm Hfit c bold.
    assert (Hv : valid_color (color_value c))
      by (apply color_value_valid; by exists c).
    split_and!.
    + apply (call_returns P m (add_fg (color_value c))); try done.
      simpl. by destruct c; simpl; lia.
    + apply (call_returns P m (add_bg (color_value c))); try done.
      simpl. by destruct c; simpl; lia.
    + apply (call_returns P m (add_bold bold)); try done.
      simpl. by destruct bold; simpl; lia.
    + apply (call_returns P m add_reset); try done. simpl. lia.
Qed.

Lemma styling_codes_witness :
  exists this this',
    kstr_new lp64 roomy (Some (bytes "x")) = Ok this
    /\ kstr_add_fg lp64 roomy this (color_value kstr_color_red) = Ok this'
    /\ content this' = content this ++ ESC :: bytes "[31m"
    /\ kstr_get this' = bytes "x" ++ ESC :: bytes "[31m"
    /\ kstr_add_bg lp64 roomy this 9 = Aborted
    /\ kstr_add_fg lp64 roomy this (-1) = Aborted.
Proof.
  returned (kstr_new lp64 roomy (Some (bytes "x"))).
  returned (do this <- kstr_new lp64 roomy (Some (bytes "x"));
            kstr_add_fg lp64 roomy this (color_value kstr_color_red)).
  ran H1 H2.
  lazymatch type of H1 with
  | _ = Ok ?this =>
    assert (Hinv : rep_inv lp64 this) by (split; by vm_compute);
    destruct (styling_codes lp64 roomy this Hinv)
      as (Hfg & _ & _ & _ & _ & Hbad & _)
  end.
  split; [exact (proj1 (Hfg kstr_color_red _ H2))|]. split; [run_it|].
  split.
  - apply (Hbad 9); unfold color_repr, valid_color, kstr_num_colors; simpl; lia.
  - apply (Hbad (-1)); unfold color_repr, valid_color, kstr_num_colors; simpl; lia.
Defined.

(** ** C10 *)

(** C10.  When the dry run of [kstr_add_vfmt] reports a negative length,
    the call appends nothing: the buffer, and with it the value, the size
    and the width are as before.  It still drops the cached basename, and
    it returns the string, on every heap: no abort, no error. *)
Theorem negative_length (P : platform) (m : heap) (this : kstr)
    (fmt : option (list byte)) (args : list parg) :
  rep_inv P this -> vsnprintf_length P fmt args < 0 ->
  exists this', kstr_add_vfmt P m this fmt args = Ok this'
    /\ data this' = data this
    /\ kstr_get this' = kstr_get this
    /\ kstr_size this' = kstr_size this
    /\ kstr_width this' = kstr_width this
    /\ basename this' = None.
Proof.
  intros Hinv Hneg. rewrite kstr_add_vfmt_failed by done.
  eexists. split; [done|]. done.
Qed.

Lemma negative_length_witness :
  exists this this',
    (do this0 <- kstr_new lp64 roomy (Some (bytes "/one/two/file"));
     do r <- kstr_basename lp64 roomy this0; Ok (snd r)) = Ok this
    /\ kstr_add_vfmt lp64 exhausted this (Some (bytes "100%")) [] = Ok this'
    /\ basename this = Some (bytes "file")
    /\ basename this' = None
    /\ kstr_get this' = bytes "/one/two/file"
    /\ kstr_size this' = 14.
Proof.
  returned (do this0 <- kstr_new lp64 roomy (Some (bytes "/one/two/file"));
            do r <- kstr_basename lp64 roomy this0; Ok (snd r)).
  lazymatch goal with
  | |- exists this', _ /\ kstr_add_vfmt _ _ ?this ?fmt ?args = _ /\ _ =>
    assert (Hinv : rep_inv lp64 this) by (split; by vm_compute);
    destruct (negative_length lp64 exhausted this fmt args Hinv)
      as (this' & Hadd & _ & Hget & Hsize & _ & Hbase); [by vm_compute|]
  end.
  exists this'. split; [run_it|]. split; [exact Hadd|]. split; [run_it|].
  split; [exact Hbase|]. rewrite Hget, Hsize. split; run_it.
Defined.

(** ** Growth

    The buffer of a new string has 64 bytes; 1024 calls that append one
    byte each take it to 2048 bytes, and the value to 1024 dots. *)
Example growth_1024 :
  exists this this',
    kstr_new lp64 roomy None = Ok this
    /\ run lp64 (replicate (Z.to_nat 1024) (roomy, add_text (Some (bytes "."))))
         this = Ok this'
    /\ kstr_width this' = 1024
    /\ kstr_get this' = replicate (Z.to_nat 1024) "."%byte
    /\ data_size this' = 2048.
Proof.
  returned (kstr_new lp64 roomy None).
  returned (do this <- kstr_new lp64 roomy None;
            run lp64 (replicate (Z.to_nat 1024)
                        (roomy, add_text (Some (bytes ".")))) this).
  ran H1 H2. split_and!; run_it.
Qed.

(** * Further properties of the code *)

(** ** The value after a call and after a run *)

Lemma run_content (P : platform) (calls : list (heap * op)) (this this' : kstr) :
  rep_inv P this -> run P calls this = Ok this' ->
  rep_inv P this' /\ content this' = spec_value P (content this) calls.
Proof.
  revert this. induction calls as [|[m o] calls IH]; intros this Hinv; simpl.
  - by intros [= <-].
  - pose proof (call_spec P m o this Hinv) as Hs.
    destruct (call P m o this) as [mid| | |]; simpl; try done.
    destruct Hs as (Hi & _ & _ & _ & Hc & _). intros Hrun.
    apply IH in Hrun as [? ->]; [|done]. by rewrite Hc.
Qed.

Lemma spec_value_nul_free (P : platform) (calls : list (heap * op))
    (before : list byte) :
  nul_free before -> Forall (fun c => nul_free (appended P (snd c))) calls ->
  nul_free (spec_value P before calls).
Proof.
  intros Hb Hall. revert before Hb.
  induction Hall as [|[m o] calls Ho _ IH]; intros before Hb; [done|].
  apply IH. unfold value_after. apply nul_free_app; [|done].
  destruct (resets (snd (m, o))); [constructor|done].
Qed.

(** X1.  A call that returns leaves the bytes it appends behind the old
    value, or alone when it is a set, and the size is the number of these
    bytes and one; where neither the old value nor the appended bytes hold a
    nul, this is what [kstr_get] reads. *)
Theorem call_appends (P : platform) (m : heap) (o : op) (this this' : kstr) :
  rep_inv P this -> call P m o this = Ok this' ->
  content this' = value_after P (content this) o
  /\ kstr_size this' = needed P this o
  /\ (nul_free (content this) -> nul_free (appended P o) ->
      kstr_get this' = value_after P (kstr_get this) o).
Proof.
  intros Hinv Hcall. pose proof (call_spec P m o this Hinv) as Hs.
  rewrite Hcall in Hs. destruct Hs as (Hinv' & _ & Hu & _ & Hc & _).
  split_and!; [done|done|]. intros Hnf Ho.
  destruct (nul_free_kept P m o this this' Hinv Hnf Ho Hcall) as [Hnf' _].
  by rewrite !(kstr_get_content P).
Qed.

Lemma call_appends_witness :
  exists this this',
    kstr_new lp64 roomy (Some (bytes "test")) = Ok this
    /\ call lp64 roomy (add_text (Some (bytes "-new"))) this = Ok this'
    /\ kstr_get this' = bytes "test-new".
Proof.
  returned (kstr_new lp64 roomy (Some (bytes "test"))).
  returned (do this <- kstr_new lp64 roomy (Some (bytes "test"));
            call lp64 roomy (add_text (Some (bytes "-new"))) this).
  ran H1 H2.
  lazymatch type of H2 with
  | call _ _ ?o ?this = Ok ?this' =>
    assert (Hinv : rep_inv lp64 this) by (split; by vm_compute);
    destruct (call_appends lp64 roomy o this this' Hinv H2) as (_ & _ & Hget)
  end.
  rewrite Hget; [run_it|by repeat constructor|by repeat constructor].
Defined.

(** X2.  After a run of calls on a new string the value is the one the
    calls build in order: the initial text, replaced at each set and
    extended by each other call; the size is its length and one.  Where no
    call appends a nul byte, [kstr_get] reads all of it. *)
Theorem run_appends (P : platform) (m : heap) (text : option (list byte))
    (calls : list (heap * op)) (this this' : kstr) :
  kstr_new P m text = Ok this -> run P calls this = Ok this' ->
  content this' = spec_value P (text_value text) calls
  /\ kstr_size this' = 1 + Z.of_nat (length (spec_value P (text_value text) calls))
  /\ (Forall (fun c => nul_free (appended P (snd c))) calls ->
      kstr_get this' = spec_value P (text_value text) calls).
Proof.
  intros Hnew Hrun. pose proof (kstr_new_spec P m text) as Hs.
  rewrite Hnew in Hs. destruct Hs as (Hinv & _ & _ & Hc & _).
  apply run_content in Hrun as [Hinv' Hc']; [|done]. rewrite Hc in Hc'.
  split_and!; [done| |].
  - rewrite <- Hc'. pose proof (content_length P this' Hinv').
    unfold kstr_size. lia.
  - intros Hall. rewrite (kstr_get_content P); [done|done|].
    rewrite Hc'. apply spec_value_nul_free; [apply text_value_nul_free|done].
Qed.

Lemma run_appends_witness :
  exists this this',
    kstr_new lp64 roomy None = Ok this
    /\ run lp64
         [ (roomy, set_text (Some (bytes "test")));
           (roomy, add_text (Some (bytes "-new")));
           (roomy, add_fmt (Some (bytes "-%d")) [arg_int 3]);
           (roomy, add_bold true) ] this = Ok this'
    /\ kstr_get this' = bytes "test-new-3" ++ ESC :: bytes "[1m"
    /\ kstr_size this' = 15.
Proof.
  returned (kstr_new lp64 roomy None).
  returned (do this <- kstr_new lp64 roomy None;
            run lp64
              [ (roomy, set_text (Some (bytes "test")));
                (roomy, add_text (Some (bytes "-new")));
                (roomy, add_fmt (Some (bytes "-%d")) [arg_int 3]);
                (roomy, add_bold true) ] this).
  ran H1 H2.
  destruct (run_appends lp64 _ _ _ _ _ H1 H2) as (_ & Hsize & Hget).
  split; [|exact Hsize]. apply Hget. by repeat constructor.
Defined.

(** X3.  After a run of calls on a new string of which none appends a nul
    byte, the size is the length of the C string at [kstr_get] and one. *)
Theorem size_is_strlen (P : platform) (m : heap) (text : option (list byte))
    (calls : list (heap * op)) (this this' : kstr) :
  kstr_new P m text = Ok this ->
  Forall (fun c => nul_free (appended P (snd c))) calls ->
  run P calls this = Ok this' ->
  kstr_size this' = Z.of_nat (length (kstr_get this')) + 1.
Proof.
  intros Hnew Hall Hrun. pose proof (kstr_new_spec P m text) as Hs.
  rewrite Hnew in Hs. destruct Hs as (Hinv & _ & _ & Hc & _).
  apply run_content in Hrun as [Hinv' Hc']; [|done].
  apply (kstr_size_get P); [done|]. rewrite Hc', Hc.
  apply spec_value_nul_free; [apply text_value_nul_free|done].
Qed.

Lemma size_is_strlen_witness :
  exists this this',
    kstr_new lp64 roomy (Some (bytes "test")) = Ok this
    /\ run lp64 [ (roomy, add_bold true); (roomy, add_text (Some (bytes "X"))) ]
         this = Ok this'
    /\ kstr_size this' = Z.of_nat (length (kstr_get this')) + 1.
Proof.
  returned (kstr_new lp64 roomy (Some (bytes "test"))).
  returned (do this <- kstr_new lp64 roomy (Some (bytes "test"));
            run lp64 [ (roomy, add_bold true);
                       (roomy, add_text (Some (bytes "X"))) ] this).
  ran H1 H2.
  refine (size_is_strlen lp64 _ _ _ _ _ H1 _ H2). by repeat constructor.
Defined.

(** ** Texts *)

(** X4.  The bytes of a text behind its first nul play no part: a call with
    a text does what the call with the C string of that text does. *)
Theorem text_read_to_nul (P : platform) (m : heap) (this : kstr) (t : list byte) :
  kstr_add_text P m this (Some t) = kstr_add_text P m this (Some (c_str t))
  /\ kstr_set_text P m this (Some t) = kstr_set_text P m this (Some (c_str t))
  /\ kstr_new P m (Some t) = kstr_new P m (Some (c_str t)).
Proof.
  assert (Hadd : forall this,
    kstr_add_text P m this (Some t) = kstr_add_text P m this (Some (c_str t))).
  { intros s. unfold kstr_add_text, kstr_add_chars, strlen.
    rewrite (c_str_id (c_str t)) by apply c_str_nul_free.
    destruct (Z.of_nat (length (c_str t)) =? 0); [done|].
    destruct (grow_until _ _ _ _ _) as [mid| | |]; simpl; try done.
    pose proof (strlen_le t) as Hle. unfold strlen in Hle.
    pose proof (take_strlen t) as Ht. unfold strlen in Ht.
    rewrite Nat2Z.id in Ht.
    unfold memcpy. rewrite Nat2Z.id, Ht, firstn_all.
    rewrite (proj2 (Z.leb_le _ (Z.of_nat (length t)))) by lia.
    by rewrite (proj2 (Z.leb_le _ (Z.of_nat (length (c_str t))))) by lia. }
  split_and!; [done| |].
  - unfold kstr_set_text, bind.
    destruct (kstr_reset this); [apply Hadd|done|done|done].
  - unfold kstr_new, bind. destruct (can_alloc m (sizeof_kstr P)); [|done].
    destruct (malloc m init_size) as [block|]; [|done].
    destruct (store block 0 nul); [apply Hadd|done|done|done].
Qed.

(** ** The capacity *)

Lemma next_size_bound (P : platform) (a : Z) :
  1 <= a <= SIZE_MAX P -> next_size P a <= 2 * a.
Proof.
  intros Ha. unfold next_size.
  destruct (Z.ltb_spec (SIZE_MAX P / 2) a); Z.div_mod_to_equations; lia.
Qed.

Lemma grow_until_capacity (P : platform) (fuel : nat) (m : heap)
    (this this' : kstr) (count : Z) :
  block_ok P this -> 0 <= used this <= data_size this ->
  grow_until P fuel m this count = Ok this' ->
  regrown P m (used this + count) (data_size this) (data_size this').
Proof.
  revert this. induction fuel as [|fuel IH]; intros this Hb Hu; simpl;
    unfold kstr_available; rewrite wrap_small by (destruct Hb; lia);
    destruct (Z.ltb_spec (data_size this - used this) count) as [Hlt|Hge];
    try done; try (intros [= <-]; split; [by exists 0%nat|by left]).
  pose proof (kstr_grow_cases P m this Hb) as Hg.
  destruct (kstr_grow P m this) as [mid| | |]; simpl; try done.
  destruct Hg as (_ & Hserved & Hsz & Hgt & Hb' & Hu' & _). intros Hrun.
  apply IH in Hrun as [[n Hn] Hcase]; [|done|lia].
  pose proof (next_size_bound P (data_size this) (proj2 Hb)) as Hnext.
  rewrite Hu', Hsz in *. split.
  - exists (S n). by rewrite Nat.iter_succ_r.
  - right. destruct Hcase as [->|(_ & ? & ?)]; split_and!; try done; lia.
Qed.

Lemma kstr_add_chars_capacity (P : platform) (m : heap) (this this' : kstr)
    (chars : option (list byte)) (count : Z) (visible : bool) :
  rep_inv P this -> kstr_add_chars P m this chars count visible = Ok this' ->
  regrown P m (used this + count) (data_size this) (data_size this').
Proof.
  intros Hinv. pose proof (rep_inv_block P this Hinv) as Hb.
  destruct Hinv as [Hu1 _ _ Hcap _ _ _].
  assert (Hsame : forall need, regrown P m need (data_size this) (data_size this))
    by (split; [by exists 0%nat|by left]).
  unfold kstr_add_chars. destruct chars as [chars|]; [|by intros [= <-]].
  destruct (count =? 0); [by intros [= <-]|].
  destruct (grow_until P (grow_rounds P) m this count) as [mid| | |] eqn:Hg;
    simpl; try done.
  apply grow_until_capacity in Hg; [|done|lia].
  destruct (memcpy _ _ _ _); simpl; try done.
  destruct (store _ _ _); simpl; try done. by intros [= <-].
Qed.

Lemma kstr_add_vfmt_capacity (P : platform) (m : heap) (this this' : kstr)
    (fmt : option (list byte)) (args : list parg) :
  rep_inv P this -> kstr_add_vfmt P m this fmt args = Ok this' ->
  regrown P m (used this + fmt_length P fmt args)
    (data_size this) (data_size this').
Proof.
  intros Hinv. pose proof (rep_inv_block P this Hinv) as Hb.
  destruct Hinv as [Hu1 _ _ Hcap _ _ _].
  unfold kstr_add_vfmt. destruct (vfmt_count P fmt args) as (-> & -> & _).
  destruct (grow_until P (grow_rounds P) m this _) as [mid| | |] eqn:Hg;
    simpl; try done.
  apply grow_until_capacity in Hg; [|done|lia].
  destruct (vsnprintf_store _ _ _ _ _ _); simpl; try done. by intros [= <-].
Qed.

Lemma call_capacity (P : platform) (m : heap) (o : op) (this this' : kstr) :
  rep_inv P this -> call P m o this = Ok this' ->
  regrown P m (needed P this o) (data_size this) (data_size this').
Proof.
  intros Hinv. unfold needed.
  destruct o as [text|fmt args|text|fmt args|bold|color|color|]; simpl.
  - unfold kstr_set_text.
    destruct (kstr_reset_spec P this Hinv) as (mid & -> & Hi & Hu & _ & _ & _ & Hd).
    simpl. intros Hadd.
    apply kstr_add_chars_capacity in Hadd; [|done].
    rewrite <- text_length_value. rewrite Hu, Hd in Hadd. exact Hadd.
  - unfold kstr_set_fmt, kstr_set_vfmt.
    destruct (kstr_reset_spec P this Hinv) as (mid & -> & Hi & Hu & _ & _ & _ & Hd).
    simpl. intros Hadd.
    apply kstr_add_vfmt_capacity in Hadd; [|done].
    destruct (vfmt_count P fmt args) as (_ & Hf & _).
    by rewrite Hu, Hd, Hf in Hadd.
  - intros Hadd. apply kstr_add_chars_capacity in Hadd; [|done].
    rewrite <- text_length_value. exact Hadd.
  - intros Hadd. apply kstr_add_vfmt_capacity in Hadd; [|done].
    destruct (vfmt_count P fmt args) as (_ & Hf & _). by rewrite Hf in Hadd.
  - unfold kstr_add_bold. cbn zeta. intros Hadd.
    apply kstr_add_chars_capacity in Hadd; [|done]. by destruct bold.
  - unfold kstr_add_fg. destruct (_ <=? _); [done|].
    destruct (fg_codes !! Z.to_nat color) as [code|] eqn:Hl; [|done].
    intros Hadd. apply kstr_add_chars_capacity in Hadd; [|done].
    pose proof (codes_shape fg_codes (or_introl eq_refl)) as Hshape.
    eapply Forall_lookup_1 in Hshape as [Hnf _]; [|done].
    unfold strlen in Hadd. by rewrite c_str_id in Hadd.
  - unfold kstr_add_bg. destruct (_ <=? _); [done|].
    destruct (bg_codes !! Z.to_nat color) as [code|] eqn:Hl; [|done].
    intros Hadd. apply kstr_add_chars_capacity in Hadd; [|done].
    pose proof (codes_shape bg_codes (or_intror eq_refl)) as Hshape.
    eapply Forall_lookup_1 in Hshape as [Hnf _]; [|done].
    unfold strlen in Hadd. by rewrite c_str_id in Hadd.
  - unfold kstr_add_reset. cbn zeta. intros Hadd.
    by apply kstr_add_chars_capacity in Hadd.
Qed.

Lemma kstr_new_capacity (P : platform) (m : heap) (text : option (list byte))
    (this : kstr) :
  kstr_new P m text = Ok this ->
  regrown P m (1 + text_length text) 64 (data_size this).
Proof.
  pose proof (SIZE_MAX_large P) as HM. unfold kstr_new, kstr_abort, init_size.
  destruct (can_alloc m (sizeof_kstr P)); [|done].
  destruct (malloc m 64) as [block|] eqn:Hblock; [|done].
  apply malloc_length in Hblock; [|lia].
  rewrite store_ok by lia. simpl. intros Hadd.
  apply kstr_add_chars_capacity in Hadd; [done|].
  split; simpl; try lia.
  - apply list_lookup_insert_eq. lia.
  - rewrite length_insert. lia.
Qed.

Lemma doubled_next (P : platform) (a : Z) :
  doubled P a -> doubled P (next_size P a).
Proof.
  unfold next_size. destruct (Z.ltb_spec (SIZE_MAX P / 2) a); [by left|].
  intros [->|[k ->]];
    [pose proof (SIZE_MAX_large P); Z.div_mod_to_equations; lia|].
  right. exists (S k).
  rewrite Nat2Z.inj_succ, Z.pow_succ_r by lia. lia.
Qed.

Lemma doubled_regrown (P : platform) (m : heap) (need a b : Z) :
  doubled P a -> regrown P m need a b -> doubled P b.
Proof.
  intros Ha [[n ->] _]. induction n as [|n IH]; [done|].
  simpl. by apply doubled_next.
Qed.

(** X5.  A call never shrinks the buffer, and grows it no further than it
    must: the capacity stays as it is when the bytes the call needs fit, and
    otherwise ends below twice the size the string then has.  The same holds
    for a new string, from the initial 64 bytes. *)
Theorem capacity_bound (P : platform) (m : heap) :
  (forall o this this',
      rep_inv P this -> call P m o this = Ok this' ->
      data_size this' = data_size this
      \/ data_size this < kstr_size this'
         /\ data_size this < data_size this' < 2 * kstr_size this')
  /\ (forall text this,
        kstr_new P m text = Ok this ->
        data_size this = 64
        \/ 64 < kstr_size this /\ 64 < data_size this < 2 * kstr_size this).
Proof.
  split.
  - intros o this this' Hinv Hcall.
    pose proof (call_capacity P m o this this' Hinv Hcall) as [_ Hcase].
    pose proof (call_spec P m o this Hinv) as Hs. rewrite Hcall in Hs.
    destruct Hs as (_ & _ & Hu & _). unfold kstr_size. rewrite Hu.
    destruct Hcase as [|(? & ? & _)]; [by left|by right].
  - intros text this Hnew.
    pose proof (kstr_new_capacity P m text this Hnew) as [_ Hcase].
    pose proof (kstr_new_spec P m text) as Hs. rewrite Hnew in Hs.
    destruct Hs as (_ & Hu & _). unfold kstr_size. rewrite Hu.
    destruct Hcase as [|(? & ? & _)]; [by left|by right].
Qed.

Lemma capacity_bound_witness :
  exists this this',
    kstr_new lp64 roomy (Some (bytes "test")) = Ok this
    /\ call lp64 roomy (add_text (Some (replicate (Z.to_nat 100) "."%byte)))
         this = Ok this'
    /\ data_size this = 64 /\ kstr_size this' = 105 /\ data_size this' = 128
    /\ (data_size this' = data_size this
        \/ data_size this < kstr_size this'
           /\ data_size this < data_size this' < 2 * kstr_size this').
Proof.
  returned (kstr_new lp64 roomy (Some (bytes "test"))).
  returned (do this <- kstr_new lp64 roomy (Some (bytes "test"));
            call lp64 roomy
              (add_text (Some (replicate (Z.to_nat 100) "."%byte))) this).
  ran H1 H2. split_and!; [run_it|run_it|run_it|].
  lazymatch type of H2 with
  | call _ _ ?o ?this = Ok ?this' =>
    assert (Hinv : rep_inv lp64 this) by (split; by vm_compute);
    exact (proj1 (capacity_bound lp64 roomy) o this this' Hinv H2)
  end.
Defined.

(** X6.  The capacity of every string a program can reach is 64 doubled a
    number of times, or [SIZE_MAX]. *)
Theorem capacity_doubled (P : platform) (this : kstr) :
  reachable P this -> doubled P (data_size this).
Proof.
  induction 1 as [m text this Hnew|m this this' Hr IH Hcopy
                  |m o this this' Hr IH Hcall|m this b this' Hr IH Hbase].
  - apply (doubled_regrown P m (1 + text_length text) 64);
      [right; by exists 0%nat|by apply kstr_new_capacity].
  - pose proof (kstr_copy_spec P m this (reachable_inv P this Hr)) as Hs.
    rewrite Hcopy in Hs. destruct Hs as (_ & -> & _). done.
  - apply (doubled_regrown P m (needed P this o) (data_size this)); [done|].
    apply call_capacity; [by apply reachable_inv|done].
  - pose proof (kstr_basename_spec P m this) as Hs. rewrite Hbase in Hs.
    destruct Hs as (-> & _). done.
Qed.

Lemma capacity_doubled_witness :
  exists this,
    kstr_new lp64 roomy (Some text_long) = Ok this
    /\ data_size this = 2048 /\ doubled lp64 (data_size this).
Proof.
  returned (kstr_new lp64 roomy (Some text_long)).
  lazymatch goal with
  | |- ?A /\ _ => assert (H1 : A) by run_it; split; [exact H1|]
  end.
  split; [run_it|].
  exact (capacity_doubled lp64 _ (reach_new lp64 roomy (Some text_long) _ H1)).
Defined.

(** ** Calls that need no memory, and calls that get none *)

Lemma kstr_add_chars_fits (P : platform) (m : heap) (this : kstr)
    (chars : list byte) (count : Z) (visible : bool) :
  rep_inv P this -> used this + count <= data_size this ->
  kstr_add_chars P m this (Some chars) count visible <> Aborted.
Proof.
  intros [Hu1 _ _ Hcap _ Hmax _] Hfit. unfold kstr_add_chars.
  destruct (count =? 0); [done|].
  rewrite grow_until_exit
    by (unfold kstr_available; rewrite wrap_small; lia).
  simpl. unfold memcpy. destruct (_ && _); simpl; [|done].
  unfold store. by destruct (_ && _).
Qed.

Lemma kstr_add_vfmt_fits (P : platform) (m : heap) (this : kstr)
    (fmt : option (list byte)) (args : list parg) :
  rep_inv P this -> used this + fmt_length P fmt args <= data_size this ->
  kstr_add_vfmt P m this fmt args <> Aborted.
Proof.
  intros [Hu1 _ _ Hcap _ Hmax _] Hfit. unfold kstr_add_vfmt.
  destruct (vfmt_count P fmt args) as (-> & Hf & _). rewrite Hf in Hfit.
  rewrite grow_until_exit
    by (unfold kstr_available; rewrite wrap_small; lia).
  simpl. unfold vsnprintf_store, memcpy. destruct (_ =? 0); [done|].
  by destruct (_ && _).
Qed.

Lemma call_fits_served (P : platform) (m : heap) (o : op) (this : kstr) :
  rep_inv P this -> valid_op o -> needed P this o <= data_size this ->
  call P m o this <> Aborted.
Proof.
  intros Hinv Hvalid. unfold needed.
  destruct o as [text|fmt args|text|fmt args|bold|color|color|];
    simpl in Hvalid |- *; intros Hfit.
  - unfold kstr_set_text.
    destruct (kstr_reset_spec P this Hinv) as (mid & -> & Hi & Hu & _ & _ & _ & Hd).
    simpl. unfold kstr_add_text. destruct text as [t|]; [|done].
    apply kstr_add_chars_fits; [done|]. rewrite Hu, Hd. exact Hfit.
  - unfold kstr_set_fmt, kstr_set_vfmt.
    destruct (kstr_reset_spec P this Hinv) as (mid & -> & Hi & Hu & _ & _ & _ & Hd).
    simpl. apply kstr_add_vfmt_fits; [done|].
    destruct (vfmt_count P fmt args) as (_ & -> & _). by rewrite Hu, Hd.
  - unfold kstr_add_text. destruct text as [t|]; [|done].
    by apply kstr_add_chars_fits.
  - apply kstr_add_vfmt_fits; [done|].
    by destruct (vfmt_count P fmt args) as (_ & -> & _).
  - unfold kstr_add_bold. cbn zeta. apply kstr_add_chars_fits; [done|].
    by destruct bold.
  - unfold kstr_add_fg. rewrite color_check_valid by done.
    destruct (code_lookup fg_codes color (or_introl eq_refl) Hvalid)
      as (code & Hl & Hnf & _).
    rewrite Hl in Hfit |- *. apply kstr_add_chars_fits; [done|].
    unfold strlen. by rewrite c_str_id.
  - unfold kstr_add_bg. rewrite color_check_valid by done.
    destruct (code_lookup bg_codes color (or_intror eq_refl) Hvalid)
      as (code & Hl & Hnf & _).
    rewrite Hl in Hfit |- *. apply kstr_add_chars_fits; [done|].
    unfold strlen. by rewrite c_str_id.
  - unfold kstr_add_reset. cbn zeta. by apply kstr_add_chars_fits.
Qed.

(** X7.  A call whose bytes fit the buffer as it is asks the heap for
    nothing: it returns on every heap, one that serves no request included,
    and leaves the capacity as it was. *)
Theorem call_fits (P : platform) (m : heap) (o : op) (this : kstr) :
  rep_inv P this -> valid_op o -> needed P this o <= data_size this ->
  exists this', call P m o this = Ok this'
    /\ data_size this' = data_size this /\ kstr_size this' = needed P this o.
Proof.
  intros Hinv Hvalid Hfit.
  pose proof (call_spec P m o this Hinv) as Hs.
  pose proof (call_fits_served P m o this Hinv Hvalid Hfit) as Hserved.
  destruct (call P m o this) as [this'| | |] eqn:Hcall;
    [|done|destruct Hs; by apply valid_op_typed|done].
  exists this'. destruct Hs as (_ & _ & Hu & _). split_and!; [done| |done].
  destruct (call_capacity P m o this this' Hinv Hcall) as [_ [|(? & _)]];
    [done|lia].
Qed.

Lemma call_fits_witness :
  exists this this',
    kstr_new lp64 roomy (Some (bytes "test")) = Ok this
    /\ call lp64 exhausted (add_fg (color_value kstr_color_red)) this = Ok this'
    /\ data_size this' = 64.
Proof.
  returned (kstr_new lp64 roomy (Some (bytes "test"))).
  lazymatch goal with
  | |- exists this', _ /\ call _ _ ?o ?this = _ /\ _ =>
    assert (Hinv : rep_inv lp64 this) by (split; by vm_compute);
    destruct (call_fits lp64 exhausted o this Hinv) as (this' & Hcall & Hcap & _);
      [by vm_compute|by vm_compute|]
  end.
  exists this'. split; [run_it|]. split; [exact Hcall|]. rewrite Hcap. run_it.
Defined.

(** X8.  On a heap that serves no request, a call whose bytes do not fit
    the buffer ends in [abort()]. *)
Theorem call_refused (P : platform) (m : heap) (o : op) (this : kstr) :
  rep_inv P this -> op_typed P o -> barren m ->
  data_size this < needed P this o ->
  call P m o this = Aborted.
Proof.
  intros Hinv Ht Hm Hneed.
  pose proof (call_spec P m o this Hinv) as Hs.
  destruct (call P m o this) as [this'| | |] eqn:Hcall; [|done|done|done].
  destruct Hs as ([_ _ _ Hcap _ _ _] & _ & Hu & _). unfold needed in Hneed.
  destruct (call_capacity P m o this this' Hinv Hcall) as [_ [|(_ & _ & Hyes)]];
    [lia|by rewrite Hm in Hyes].
Qed.

Lemma call_refused_witness :
  exists this,
    kstr_new lp64 roomy (Some (bytes "test")) = Ok this
    /\ call lp64 exhausted
         (add_text (Some (replicate (Z.to_nat 100) "."%byte))) this = Aborted.
Proof.
  returned (kstr_new lp64 roomy (Some (bytes "test"))).
  split; [run_it|].
  apply call_refused; [split; by vm_compute|done|done|by vm_compute].
Defined.

(** X9.  A call that would take the size past [SIZE_MAX] ends in
    [abort()], on every heap: the counters never wrap around. *)
Theorem call_overflow (P : platform) (m : heap) (o : op) (this : kstr) :
  rep_inv P this -> op_typed P o -> SIZE_MAX P < needed P this o ->
  call P m o this = Aborted.
Proof.
  intros Hinv Ht Hneed.
  pose proof (call_spec P m o this Hinv) as Hs.
  destruct (call P m o this) as [this'| | |] eqn:Hcall; [|done|done|done].
  destruct Hs as ([_ _ _ Hcap _ Hmax _] & _ & Hu & _). unfold needed in Hneed.
  lia.
Qed.

Lemma call_overflow_witness :
  rep_inv ip16 nearly_full
  /\ call ip16 roomy (add_text (Some (replicate (Z.to_nat 30000) "b"%byte)))
       nearly_full = Aborted.
Proof.
  assert (Hinv : rep_inv ip16 nearly_full) by (split; by vm_compute).
  split; [exact Hinv|].
  apply call_overflow; [exact Hinv|done|by vm_compute].
Defined.

(** ** Formatted and plain appends *)

(** A rendering that is not empty is stored as [kstr_add_chars] stores its
    bytes. *)
Lemma kstr_add_vfmt_chars (P : platform) (m : heap) (this : kstr)
    (fmt : option (list byte)) (args : list parg) (out : list byte) :
  rep_inv P this -> rendering P fmt args = Some out -> out <> [] ->
  kstr_add_vfmt P m this fmt args
  = kstr_add_chars P m this (Some out) (Z.of_nat (length out)) true.
Proof.
  intros Hinv Hr Hne. pose proof (rep_inv_block P this Hinv) as Hb.
  pose proof (SIZE_MAX_large P) as HM.
  destruct (vfmt_count P fmt args) as (Hcount & _ & Hbound).
  rewrite Hr in Hcount, Hbound. simpl in Hcount, Hbound.
  pose proof (INT_MAX_fits P) as HI.
  unfold kstr_add_vfmt, kstr_add_chars. rewrite Hcount.
  assert (0 < length out)%nat by (destruct out; [done|simpl; lia]).
  destruct (Z.eqb_spec (Z.of_nat (length out)) 0); [lia|].
  destruct (grow_until P (grow_rounds P) m this (Z.of_nat (length out)))
    as [mid| | |] eqn:Hg; simpl; try done.
  destruct Hinv as [Hu1 Hterm Hw Hcap Hmin Hmax Hlen].
  apply grow_until_ok in Hg as ([Hlen' Hsz'] & Hgr & Havail); [|done|lia|lia].
  destruct Hgr as (Hu & Hwd & _). rewrite Hu, Hwd in *.
  unfold vsnprintf_store. rewrite Hr. simpl.
  rewrite (wrap_small P (Z.of_nat (length out) + 1)) by lia.
  destruct (Z.eqb_spec (Z.of_nat (length out) + 1) 0); [lia|].
  replace (take (Z.to_nat (Z.of_nat (length out) + 1 - 1)) out) with out
    by (symmetry; apply take_ge; lia).
  rewrite !memcpy_ok by (rewrite ?length_app; simpl; lia). simpl.
  rewrite !Nat2Z.id, !firstn_all.
  rewrite (wrap_small P (used this + _)) by lia.
  rewrite (wrap_small P (used this + _ - 1)) by lia.
  rewrite store_ok
    by (rewrite !length_app, length_take, length_drop; lia).
  simpl. do 2 f_equal.
  set (k := Z.to_nat (used this - 1)).
  replace (Z.to_nat (used this + Z.of_nat (length out) - 1))
    with (length (take k (data mid) ++ out) + 0)%nat
    by (rewrite length_app, length_take; lia).
  rewrite (app_assoc (take k (data mid)) out), insert_app_r.
  rewrite <- !app_assoc. do 2 f_equal. rewrite length_app. simpl.
  destruct (drop (k + length out) (data mid)) as [|x rest] eqn:Hd.
  { apply (f_equal length) in Hd. rewrite length_drop in Hd. simpl in Hd. lia. }
  simpl. f_equal.
  replace (k + (length out + 1))%nat with (k + length out + 1)%nat by lia.
  by rewrite <- drop_drop, Hd.
Qed.

(** Where nothing is rendered, by failure or because the rendering is
    empty, [kstr_add_vfmt] stores a terminator over the terminator and
    clears the cache. *)
Lemma kstr_add_vfmt_nothing (P : platform) (m : heap) (this : kstr)
    (fmt : option (list byte)) (args : list parg) :
  rep_inv P this -> default [] (rendering P fmt args) = [] ->
  kstr_add_vfmt P m this fmt args
  = Ok {| data_size := data_size this; used := used this;
          width := width this; basename := None; data := data this |}.
Proof.
  intros Hinv Hr. pose proof (SIZE_MAX_large P) as HM.
  destruct (vfmt_count P fmt args) as (Hcount & _ & _).
  rewrite Hr in Hcount. simpl in Hcount.
  destruct Hinv as [Hu1 Hterm Hw Hcap Hmin Hmax Hlen].
  unfold kstr_add_vfmt. rewrite Hcount. simpl.
  rewrite grow_until_exit
    by (unfold kstr_available; rewrite wrap_small; lia).
  simpl. unfold vsnprintf_store. rewrite Hr.
  change (Z.of_nat 0) with 0.
  rewrite (wrap_small P (0 + 1)) by lia. simpl.
  rewrite memcpy_ok by (simpl; lia). simpl.
  rewrite !Z.add_0_r, !wrap_small by lia.
  replace (Z.to_nat (used this - 1) + 1)%nat
    with (S (Z.to_nat (used this - 1))) by lia.
  by rewrite take_drop_middle.
Qed.

(** X10.  Appending through a format is appending the rendered bytes as
    visible characters: where the rendering is not empty, [kstr_add_vfmt]
    does what [kstr_add_chars] does with these bytes.  Where it is empty
    the two differ: [kstr_add_chars] returns the string as it is,
    [kstr_add_vfmt] returns it without its cached basename. *)
Theorem vfmt_as_chars (P : platform) (m : heap) (this : kstr)
    (fmt : option (list byte)) (args : list parg) (out : list byte) :
  rep_inv P this -> rendering P fmt args = Some out ->
  (out <> [] ->
   kstr_add_vfmt P m this fmt args
   = kstr_add_chars P m this (Some out) (Z.of_nat (length out)) true)
  /\ (out = [] ->
      kstr_add_chars P m this (Some out) (Z.of_nat (length out)) true = Ok this
      /\ kstr_add_vfmt P m this fmt args
         = Ok {| data_size := data_size this; used := used this;
                 width := width this; basename := None; data := data this |}).
Proof.
  intros Hinv Hr. split.
  - by apply kstr_add_vfmt_chars.
  - intros ->. split; [done|].
    apply kstr_add_vfmt_nothing; [done|]. by rewrite Hr.
Qed.

Lemma vfmt_as_chars_witness :
  exists this,
    kstr_new lp64 roomy (Some (bytes "n = ")) = Ok this
    /\ kstr_add_vfmt lp64 roomy this (Some (bytes "%d")) [arg_int 42]
       = kstr_add_chars lp64 roomy this (Some (bytes "42")) 2 true.
Proof.
  returned (kstr_new lp64 roomy (Some (bytes "n = "))).
  lazymatch goal with
  | |- _ /\ kstr_add_vfmt _ _ ?this ?fmt ?args = _ =>
    assert (Hinv : rep_inv lp64 this) by (split; by vm_compute);
    assert (Hr : rendering lp64 fmt args = Some (bytes "42")) by run_it;
    destruct (vfmt_as_chars lp64 roomy this fmt args _ Hinv Hr) as [Heq _]
  end.
  split; [run_it|]. apply Heq. done.
Defined.

(** ** What a call leaves alone *)

Lemma kstr_reset_data (P : platform) (this : kstr) :
  rep_inv P this ->
  kstr_reset this
  = Ok {| data_size := data_size this; used := 1; width := 0;
          basename := None; data := <[0%nat := nul]> (data this) |}.
Proof.
  intros [? ? ? ? ? ? ?]. unfold kstr_reset. by rewrite store_ok by lia.
Qed.

(** [kstr_add_chars] writes [count] bytes and a terminator from the old
    terminator on, and nothing behind them. *)
Lemma kstr_add_chars_frame (P : platform) (m : heap) (this this' : kstr)
    (chars : option (list byte)) (count : Z) (visible : bool) :
  rep_inv P this -> 0 <= count ->
  kstr_add_chars P m this chars count visible = Ok this' ->
  forall i : nat, used this + count <= Z.of_nat i < data_size this ->
    data this' !! i = data this !! i.
Proof.
  intros Hinv Hc Hadd i Hi. pose proof (rep_inv_block P this Hinv) as Hb.
  pose proof (SIZE_MAX_large P) as HM.
  destruct Hinv as [Hu1 Hterm Hw Hcap Hmin Hmax Hlen].
  unfold kstr_add_chars in Hadd.
  destruct chars as [chars|]; [|by injection Hadd as <-].
  destruct (Z.eqb_spec count 0); [by injection Hadd as <-|].
  destruct (grow_until P (grow_rounds P) m this count) as [mid| | |] eqn:Hg;
    simpl in Hadd; try done.
  apply grow_until_ok in Hg as ([Hlen' Hsz'] & Hgr & Havail); [|done|lia|lia].
  destruct Hgr as (Hu & Hwd & _ & _ & junk & Hjunk). rewrite Hu in *.
  unfold memcpy in Hadd.
  destruct (_ && _) eqn:Hcond in Hadd; [|done]. simpl in Hadd.
  apply andb_true_iff in Hcond as [Hcond Hsrc].
  apply Z.leb_le in Hsrc.
  rewrite (wrap_small P (used this + count)) in Hadd by lia.
  rewrite (wrap_small P (used this + count - 1)) in Hadd by lia.
  unfold store in Hadd. destruct (_ && _) in Hadd; [|done]. simpl in Hadd.
  injection Hadd as <-. simpl.
  rewrite list_lookup_insert_ne by lia.
  rewrite lookup_app_r by (rewrite length_take; lia).
  rewrite lookup_app_r by (rewrite !length_take; lia).
  rewrite lookup_drop, !length_take.
  replace (Z.to_nat (used this - 1 + count)
           + (i - Z.to_nat (used this - 1) `min` length (data mid)
              - Z.to_nat count `min` length chars))%nat with i by lia.
  rewrite Hjunk. apply lookup_app_l. lia.
Qed.

Lemma kstr_add_vfmt_frame (P : platform) (m : heap) (this this' : kstr)
    (fmt : option (list byte)) (args : list parg) :
  rep_inv P this -> kstr_add_vfmt P m this fmt args = Ok this' ->
  forall i : nat,
    used this + fmt_length P fmt args <= Z.of_nat i < data_size this ->
    data this' !! i = data this !! i.
Proof.
  intros Hinv Hadd i Hi.
  destruct (vfmt_count P fmt args) as (_ & Hf & _). rewrite Hf in Hi.
  destruct (rendering P fmt args) as [[|b out]|] eqn:Hr.
  - rewrite kstr_add_vfmt_nothing in Hadd by (by rewrite ?Hr).
    by injection Hadd as <-.
  - rewrite (kstr_add_vfmt_chars P m this fmt args (b :: out)) in Hadd by done.
    by eapply kstr_add_chars_frame; [done| |exact Hadd|]; [lia|].
  - rewrite kstr_add_vfmt_nothing in Hadd by (by rewrite ?Hr).
    by injection Hadd as <-.
Qed.

Lemma call_untouched (P : platform) (m : heap) (o : op) (this this' : kstr) :
  rep_inv P this -> call P m o this = Ok this' ->
  forall i : nat, needed P this o <= Z.of_nat i < data_size this ->
    data this' !! i = data this !! i.
Proof.
  intros Hinv. unfold needed.
  destruct o as [text|fmt args|text|fmt args|bold|color|color|]; simpl.
  - unfold kstr_set_text.
    destruct (kstr_reset_spec P this Hinv) as (mid & Hmid & Hi & _).
    rewrite Hmid. rewrite (kstr_reset_data P) in Hmid by done.
    injection Hmid as <-. simpl. intros Hadd i Hrange.
    rewrite <- text_length_value in Hrange.
    assert (0 <= text_length text) as Hc
      by (destruct text; simpl; [apply strlen_le|lia]).
    rewrite (kstr_add_chars_frame P m _ this' _ _ _ Hi Hc Hadd i)
      by (simpl; lia).
    simpl. apply list_lookup_insert_ne. lia.
  - unfold kstr_set_fmt, kstr_set_vfmt.
    destruct (kstr_reset_spec P this Hinv) as (mid & Hmid & Hi & _).
    rewrite Hmid. rewrite (kstr_reset_data P) in Hmid by done.
    injection Hmid as <-. simpl. intros Hadd i Hrange.
    destruct (vfmt_count P fmt args) as (_ & Hf & _).
    rewrite (kstr_add_vfmt_frame P m _ this' _ _ Hi Hadd i)
      by (simpl; rewrite Hf; lia).
    simpl. apply list_lookup_insert_ne. lia.
  - intros Hadd i Hrange. rewrite <- text_length_value in Hrange.
    eapply kstr_add_chars_frame; [done| |exact Hadd|exact Hrange].
    destruct text; simpl; [apply strlen_le|lia].
  - intros Hadd i Hrange.
    destruct (vfmt_count P fmt args) as (_ & Hf & _).
    eapply kstr_add_vfmt_frame; [done|exact Hadd|by rewrite Hf].
  - unfold kstr_add_bold. cbn zeta. intros Hadd i Hrange.
    eapply kstr_add_chars_frame; [done| |exact Hadd|by destruct bold].
    apply strlen_le.
  - unfold kstr_add_fg. destruct (_ <=? _); [done|].
    destruct (fg_codes !! Z.to_nat color) as [code|] eqn:Hl; [|done].
    intros Hadd i Hrange.
    pose proof (codes_shape fg_codes (or_introl eq_refl)) as Hshape.
    eapply Forall_lookup_1 in Hshape as [Hnf _]; [|done].
    eapply kstr_add_chars_frame; [done|apply strlen_le|exact Hadd|].
    unfold strlen. by rewrite c_str_id.
  - unfold kstr_add_bg. destruct (_ <=? _); [done|].
    destruct (bg_codes !! Z.to_nat color) as [code|] eqn:Hl; [|done].
    intros Hadd i Hrange.
    pose proof (codes_shape bg_codes (or_intror eq_refl)) as Hshape.
    eapply Forall_lookup_1 in Hshape as [Hnf _]; [|done].
    eapply kstr_add_chars_frame; [done|apply strlen_le|exact Hadd|].
    unfold strlen. by rewrite c_str_id.
  - unfold kstr_add_reset. cbn zeta. intros Hadd i Hrange.
    eapply kstr_add_chars_frame; [done|apply strlen_le|exact Hadd|done].
Qed.

(** X11.  A call writes the buffer from where it starts up to the new
    terminator and nowhere else: the bytes behind the new terminator are
    those that were there, emptied or not, and an appending call keeps the
    bytes before the old terminator. *)
Theorem call_frame (P : platform) (m : heap) (o : op) (this this' : kstr) :
  rep_inv P this -> call P m o this = Ok this' ->
  (forall i : nat, kstr_size this' <= Z.of_nat i < data_size this ->
     data this' !! i = data this !! i)
  /\ (resets o = false ->
      forall i : nat, Z.of_nat i < kstr_size this - 1 ->
        data this' !! i = data this !! i)
  /\ data this' !! Z.to_nat (kstr_size this' - 1) = Some nul.
Proof.
  intros Hinv Hcall.
  pose proof (call_spec P m o this Hinv) as Hs. rewrite Hcall in Hs.
  destruct Hs as (Hinv' & _ & Hu & _ & Hc & _). unfold kstr_size.
  split_and!.
  - intros i Hi. apply (call_untouched P m o this this' Hinv Hcall).
    unfold needed. lia.
  - intros Hr i Hi. rewrite Hr in Hu, Hc. unfold content in Hc.
    assert (i < Z.to_nat (used this - 1))%nat as Hlt by lia.
    assert (i < Z.to_nat (used this' - 1))%nat as Hlt' by lia.
    rewrite <- (lookup_take_lt (data this') _ _ Hlt'), Hc.
    rewrite lookup_app_l by (rewrite length_take; destruct Hinv; lia).
    by apply lookup_take_lt.
  - by destruct Hinv'.
Qed.

Lemma call_frame_witness :
  exists this this',
    kstr_new lp64 roomy (Some (bytes "secret")) = Ok this
    /\ call lp64 exhausted (set_text None) this = Ok this'
    /\ kstr_get this' = []
    /\ data this' !! 3%nat = Some "r"%byte.
Proof.
  returned (kstr_new lp64 roomy (Some (bytes "secret"))).
  returned (call lp64 exhausted (set_text None)
              {| data_size := 64; used := 7; width := 6; basename := None;
                 data := bytes "secret" ++ nul :: replicate 57 "?"%byte |}).
  lazymatch goal with
  | |- _ /\ call _ _ ?o ?this = Ok ?this' /\ _ =>
    assert (Hinv : rep_inv lp64 this) by (split; by vm_compute);
    assert (Hcall : call lp64 exhausted o this = Ok this') by run_it;
    destruct (call_frame lp64 exhausted o this this' Hinv Hcall) as [Hframe _]
  end.
  split; [run_it|]. split; [exact Hcall|]. split; [run_it|].
  rewrite (Hframe 3%nat) by (by vm_compute). run_it.
Defined.

(** X12.  Setting a value a second time changes nothing and asks the heap
    for nothing: after a set has returned, the same set returns the same
    string, whatever the heap serves. *)
Theorem set_again (P : platform) (m m' : heap) (o : op) (this this' : kstr) :
  rep_inv P this -> resets o = true ->
  call P m o this = Ok this' -> call P m' o this' = Ok this'.
Proof.
  intros Hinv Hr Hcall.
  pose proof (call_spec P m o this Hinv) as Hs. rewrite Hcall in Hs.
  destruct Hs as (Hinv' & _ & Hu & Hw & Hc & _ & Hb).
  unfold visible_width in Hw. rewrite Hr in Hu, Hw, Hc.
  assert (valid_op o) as Hv by (by destruct o).
  assert (needed P this' o <= data_size this') as Hfit
    by (unfold needed; rewrite Hr, <- Hu; apply Hinv').
  pose proof (call_spec P m' o this' Hinv') as Hs2.
  pose proof (call_fits_served P m' o this' Hinv' Hv Hfit) as Hserved.
  destruct (call P m' o this') as [this''| | |] eqn:Hcall2;
    [|done|destruct Hs2; by apply valid_op_typed|done].
  destruct Hs2 as (Hinv'' & _ & Hu2 & Hw2 & Hc2 & _ & Hb2).
  unfold visible_width in Hw2. rewrite Hr in Hu2, Hw2, Hc2.
  assert (data_size this'' = data_size this') as Hcap.
  { destruct (call_capacity P m' o this' this'' Hinv' Hcall2) as [_ [|(? & _)]];
      [done|lia]. }
  pose proof (call_untouched P m' o this' this'' Hinv' Hcall2) as Hframe.
  unfold needed in Hframe. rewrite Hr, <- Hu in Hframe.
  assert (basename this' = None) as Hn
    by (destruct Hb as [|(_ & t & -> & _)]; done).
  assert (basename this'' = None) as Hn2
    by (destruct Hb2 as [|(_ & t & -> & _)]; done).
  destruct Hinv' as [Hu1 Hterm _ Hcap1 _ _ Hlen].
  destruct Hinv'' as [_ Hterm2 _ _ _ _ Hlen2].
  rewrite <- Hc, <- Hu in *. clear Hu Hc Hcall Hcall2 Hb Hb2 Hfit Hserved.
  unfold content in Hc2. rewrite Hu2 in Hc2, Hterm2.
  destruct this' as [ds u w b d], this'' as [ds2 u2 w2 b2 d2]; simpl in *.
  subst. assert (d2 = d) as ->; [|done]. apply list_eq. intros i.
  destruct (decide (i < Z.to_nat (u - 1))%nat) as [Hlt|Hge].
  - by rewrite <- (lookup_take_lt d2 _ _ Hlt), Hc2, lookup_take_lt.
  - destruct (decide (i = Z.to_nat (u - 1))) as [->|Hne]; [congruence|].
    destruct (decide (i < length d)%nat).
    + apply Hframe. lia.
    + rewrite !lookup_ge_None_2; [done|lia|lia].
Qed.

Lemma set_again_witness :
  exists this this',
    kstr_new lp64 roomy (Some (bytes "one")) = Ok this
    /\ call lp64 roomy (set_fmt (Some (bytes "%s, %d")) [arg_str (bytes "two"); arg_int 3]) this
       = Ok this'
    /\ call lp64 exhausted
         (set_fmt (Some (bytes "%s, %d")) [arg_str (bytes "two"); arg_int 3]) this'
       = Ok this'.
Proof.
  returned (kstr_new lp64 roomy (Some (bytes "one"))).
  lazymatch goal with
  | |- exists this', _ /\ call _ _ ?o ?this = _ /\ _ =>
    assert (Hinv : rep_inv lp64 this) by (split; by vm_compute);
    returned (call lp64 roomy o this)
  end.
  lazymatch goal with
  | |- _ /\ call _ _ ?o ?this = Ok ?this' /\ _ =>
    assert (Hcall : call lp64 roomy o this = Ok this') by run_it;
    split; [run_it|]; split; [exact Hcall|];
    exact (set_again lp64 roomy exhausted o this this' Hinv eq_refl Hcall)
  end.
Defined.

(** ** Copies, creation and destruction *)

Lemma c_str_before_nul (l r : list byte) :
  (length (c_str (l ++ nul :: r)) <= length l)%nat.
Proof.
  induction l as [|b l IH]; simpl; [done|].
  destruct (Byte.eqb b nul); simpl; lia.
Qed.

(** X13.  [kstr_copy] asks the heap for an object and for a buffer of the
    capacity of the original, not of its size.  Served both, it returns a
    string with the value, size, width, capacity and buffer of the
    original and with no cached basename; refused either, it ends in
    [abort()]. *)
Theorem copy_equal (P : platform) (m : heap) (this : kstr) :
  rep_inv P this ->
  (can_alloc m (sizeof_kstr P) = true -> can_alloc m (data_size this) = true ->
   exists this', kstr_copy P m this = Ok this'
     /\ rep_inv P this'
     /\ kstr_get this' = kstr_get this
     /\ kstr_size this' = kstr_size this
     /\ kstr_width this' = kstr_width this
     /\ data_size this' = data_size this
     /\ data this' = data this
     /\ basename this' = None)
  /\ (can_alloc m (sizeof_kstr P) = false \/ can_alloc m (data_size this) = false ->
      kstr_copy P m this = Aborted).
Proof.
  intros Hinv. pose proof (kstr_copy_spec P m this Hinv) as Hs. split.
  - intros Ho Hd.
    destruct (kstr_copy P m this) as [this'| | |] eqn:Hcopy; [|exfalso|done|done].
    + exists this'. destruct Hs as (? & ? & ? & ? & Hdata & ?).
      unfold kstr_get, kstr_size, kstr_width. rewrite Hdata. by split_and!.
    + unfold kstr_copy, malloc in Hcopy. rewrite Ho, Hd in Hcopy.
      unfold memcpy in Hcopy. by destruct (_ && _) in Hcopy.
  - unfold kstr_copy, malloc. intros [-> | ->]; [done|].
    by destruct (can_alloc m (sizeof_kstr P)).
Qed.

Lemma copy_equal_witness :
  exists this this',
    kstr_new lp64 roomy (Some (bytes "/usr/lib")) = Ok this
    /\ kstr_copy lp64 small_blocks this = Ok this'
    /\ kstr_get this' = bytes "/usr/lib".
Proof.
  returned (kstr_new lp64 roomy (Some (bytes "/usr/lib"))).
  lazymatch goal with
  | |- exists this', _ /\ kstr_copy _ _ ?this = _ /\ _ =>
    assert (Hinv : rep_inv lp64 this) by (split; by vm_compute);
    destruct (copy_equal lp64 small_blocks this Hinv) as [Hserved _];
    destruct Hserved as (this' & Hcopy & _ & Hget & _);
      [by vm_compute|by vm_compute|]
  end.
  exists this'. split; [run_it|]. split; [exact Hcopy|]. rewrite Hget. run_it.
Defined.

(** X14.  [kstr_get_copy] asks the heap for the bytes of the value as
    [kstr_get] gives it and one more, never for more than [kstr_size];
    served, it returns the value, refused, it ends in [abort()]. *)
Theorem get_copy_request (P : platform) (m : heap) (this : kstr) :
  rep_inv P this ->
  Z.of_nat (length (kstr_get this)) + 1 <= kstr_size this
  /\ (can_alloc m (Z.of_nat (length (kstr_get this)) + 1) = true ->
      kstr_get_copy m this = Ok (kstr_get this))
  /\ (can_alloc m (Z.of_nat (length (kstr_get this)) + 1) = false ->
      kstr_get_copy m this = Aborted).
Proof.
  intros Hinv. split_and!.
  - unfold kstr_get, kstr_size. rewrite (rep_inv_split P this Hinv).
    pose proof (c_str_before_nul (content this)
                  (drop (S (Z.to_nat (used this - 1))) (data this))).
    pose proof (content_length P this Hinv). lia.
  - unfold kstr_get_copy, strdup, strlen, kstr_get. by intros ->.
  - unfold kstr_get_copy, strdup, strlen, kstr_get. by intros ->.
Qed.

Lemma get_copy_request_witness :
  exists this,
    kstr_new lp64 roomy (Some (bytes "/usr/lib")) = Ok this
    /\ kstr_get_copy small_blocks this = Ok (bytes "/usr/lib").
Proof.
  returned (kstr_new lp64 roomy (Some (bytes "/usr/lib"))).
  lazymatch goal with
  | |- _ /\ kstr_get_copy _ ?this = _ =>
    assert (Hinv : rep_inv lp64 this) by (split; by vm_compute);
    destruct (get_copy_request lp64 small_blocks this Hinv) as (_ & Hserved & _)
  end.
  split; [run_it|]. apply Hserved. by vm_compute.
Defined.

(** X15.  [kstr_new] asks the heap for an object and for 64 bytes.  Refused
    either, it ends in [abort()].  Served both, a text shorter than 64
    bytes needs nothing more: the string is returned with a buffer of 64
    bytes, whatever else the heap would refuse. *)
Theorem new_allocations (P : platform) (m : heap) (text : option (list byte)) :
  (can_alloc m (sizeof_kstr P) = false \/ can_alloc m 64 = false ->
   kstr_new P m text = Aborted)
  /\ (can_alloc m (sizeof_kstr P) = true -> can_alloc m 64 = true ->
      text_length text < 64 ->
      exists this, kstr_new P m text = Ok this
        /\ data_size this = 64
        /\ kstr_get this = text_value text
        /\ kstr_size this = text_length text + 1
        /\ kstr_width this = text_length text).
Proof.
  split.
  - unfold kstr_new, malloc, init_size. intros [-> | ->]; [done|].
    by destruct (can_alloc m (sizeof_kstr P)).
  - intros Ho Hd Hshort. pose proof (SIZE_MAX_large P) as HM.
    pose proof (kstr_new_spec P m text) as Hs.
    destruct (kstr_new P m text) as [this| | |] eqn:Hnew; [|exfalso|done|done].
    + exists this. destruct Hs as (Hinv & Hu & Hw & _).
      unfold kstr_size, kstr_width. split_and!; [done| |by eapply kstr_new_get|lia|done].
      destruct (kstr_new_capacity P m text this Hnew) as [_ [|(? & _)]];
        [done|lia].
    + revert Hnew. unfold kstr_new, malloc, init_size. rewrite Ho, Hd.
      rewrite store_ok by (rewrite length_fresh; lia). simpl.
      destruct text as [t|]; [|done].
      apply kstr_add_chars_fits; [|simpl in *; lia].
      split; simpl; try done; lia.
Qed.

Lemma new_allocations_witness :
  exists this,
    kstr_new lp64 small_blocks (Some (bytes "short")) = Ok this
    /\ data_size this = 64
    /\ kstr_new lp64 small_blocks (Some text_long) = Aborted.
Proof.
  destruct (new_allocations lp64 small_blocks (Some (bytes "short")))
    as [_ Hserved].
  destruct Hserved as (this & Hnew & Hcap & _);
    [by vm_compute|by vm_compute|by vm_compute|].
  exists this. split; [exact Hnew|]. split; [exact Hcap|]. run_it.
Defined.

